(** * threewordhash: the deterministic core of [src/threewordhash/core.py]

    A shallow embedding of the identifier pipeline
    ([_normalize], [_hmac_sha256], [_bytes_to_indices], [_checksum_base36],
    [friendly_id]) together with the library functions it calls
    ([hashlib.sha256], [hmac.new], [str.strip], [str.split], [str.join],
    [str.encode], [int.from_bytes], [int.to_bytes]), and the properties
    that the specification states about them. *)

From Stdlib Require Import ZArith List Lia Bool.
From Stdlib.Strings Require Import String Ascii Byte.
Import ListNotations.
Local Open Scope Z_scope.

(** ** Python values *)

(** A [bytes] object. *)
Definition bytes := list byte.

(** A [str] object: a sequence of Unicode code points. *)
Definition str := list Z.

(** The exceptions the pipeline can raise. *)
Inductive exn : Type :=
| ValueError
| ZeroDivisionError
| OverflowError
| UnicodeEncodeError
| IndexError.

(** Result of running a piece of Python code.  [Timeout] is only produced
    by a loop whose iteration budget is used up. *)
Inductive outcome (A : Type) : Type :=
| Ok (a : A)
| Raise (e : exn)
| Timeout.
Arguments Ok {A} a.
Arguments Raise {A} e.
Arguments Timeout {A}.

Definition bind {A B : Type} (m : outcome A) (k : A -> outcome B) : outcome B :=
  match m with
  | Ok a => k a
  | Raise e => Raise e
  | Timeout => Timeout
  end.

Notation "x <- m ;; k" := (bind m (fun x => k))
  (at level 61, m at next level, right associativity).

Definition byte_val (b : byte) : Z := Z.of_N (Byte.to_N b).

Definition byte_of (z : Z) : byte :=
  match Byte.of_N (Z.to_N (z mod 256)) with
  | Some b => b
  | None => x00
  end.

(** [int.from_bytes(b, "big", signed=False)] *)
Definition int_from_bytes (b : bytes) : Z :=
  fold_left (fun acc x => acc * 256 + byte_val x) b 0.

(** The [len] low-order base-256 digits of [n], most significant first. *)
Fixpoint be_digits (len : nat) (n : Z) : bytes :=
  match len with
  | O => []
  | S k => be_digits k (n / 256) ++ [byte_of n]
  end.

(** [n.to_bytes(len, "big")] *)
Definition int_to_bytes (n : Z) (len : nat) : outcome bytes :=
  if (n <? 0) || (256 ^ Z.of_nat len <=? n) then Raise OverflowError
  else Ok (be_digits len n).

(** An ASCII literal as a [str]. *)
Fixpoint lit (s : string) : str :=
  match s with
  | EmptyString => []
  | String c r => Z.of_N (N_of_ascii c) :: lit r
  end.

(** An ASCII literal as [bytes]. *)
Fixpoint blit (s : string) : bytes :=
  match s with
  | EmptyString => []
  | String c r => byte_of (Z.of_N (N_of_ascii c)) :: blit r
  end.

(** ** [hashlib.sha256] (FIPS 180-4) *)

Module SHA256.

Definition wrap32 (x : Z) : Z := x mod 4294967296.
Definition add32 (x y : Z) : Z := wrap32 (x + y).
Definition not32 (x : Z) : Z := Z.lxor x 4294967295.
Definition rotr (n x : Z) : Z :=
  Z.lor (Z.shiftr x n) (wrap32 (Z.shiftl x (32 - n))).

Definition Ch (x y z : Z) : Z := Z.lxor (Z.land x y) (Z.land (not32 x) z).
Definition Maj (x y z : Z) : Z :=
  Z.lxor (Z.lxor (Z.land x y) (Z.land x z)) (Z.land y z).
Definition Sigma0 (x : Z) : Z :=
  Z.lxor (Z.lxor (rotr 2 x) (rotr 13 x)) (rotr 22 x).
Definition Sigma1 (x : Z) : Z :=
  Z.lxor (Z.lxor (rotr 6 x) (rotr 11 x)) (rotr 25 x).
Definition sigma0 (x : Z) : Z :=
  Z.lxor (Z.lxor (rotr 7 x) (rotr 18 x)) (Z.shiftr x 3).
Definition sigma1 (x : Z) : Z :=
  Z.lxor (Z.lxor (rotr 17 x) (rotr 19 x)) (Z.shiftr x 10).

(** The prime numbers below 312: the first sixty-four. *)
Definition is_prime (n : Z) : bool :=
  forallb (fun d => negb (n mod Z.of_nat d =? 0)) (seq 2 (Z.to_nat n - 2)).

Definition primes : list Z := filter is_prime (map Z.of_nat (seq 2 310)).

(** The integer cube root, bit by bit from bit [i] down: [r] is the root
    found so far. *)
Fixpoint cbrt_bits (i : nat) (n r : Z) : Z :=
  let r' := r + 2 ^ Z.of_nat i in
  let r := if r' * r' * r' <=? n then r' else r in
  match i with
  | O => r
  | S j => cbrt_bits j n r
  end.

(** The first 32 bits of the fractional part of the cube root of [p]. *)
Definition frac_cbrt (p : Z) : Z := wrap32 (cbrt_bits 36 (p * 2 ^ 96) 0).

(** The first 32 bits of the fractional part of the square root of [p]. *)
Definition frac_sqrt (p : Z) : Z := wrap32 (Z.sqrt (p * 2 ^ 64)).

(** The round constants: from the cube roots of the first 64 primes. *)
Definition K : list Z := Eval vm_compute in map frac_cbrt primes.

(** The eight working variables, and the chaining value. *)
Record regs : Type := Regs {
  ra : Z; rb : Z; rc : Z; rd : Z; re : Z; rf : Z; rg : Z; rh : Z }.

(** The initial hash value: from the square roots of the first 8 primes. *)
Definition H0 : regs :=
  Eval vm_compute in
    Regs (frac_sqrt 2) (frac_sqrt 3) (frac_sqrt 5) (frac_sqrt 7)
         (frac_sqrt 11) (frac_sqrt 13) (frac_sqrt 17) (frac_sqrt 19).

(** Padding: a one bit, zero bits up to 56 modulo 64 bytes, and the
    message length in bits on 8 bytes. *)
Definition pad (m : bytes) : bytes :=
  let n := Z.of_nat (List.length m) in
  m ++ [x80] ++ repeat x00 (Z.to_nat ((55 - n) mod 64)) ++ be_digits 8 (8 * n).

(** Cut a byte string in pieces of [k] bytes. *)
Fixpoint pieces (fuel k : nat) (l : bytes) : list bytes :=
  match fuel with
  | O => []
  | S f =>
      match l with
      | [] => []
      | _ => firstn k l :: pieces f k (skipn k l)
      end
  end.

Definition blocks (l : bytes) : list bytes := pieces (List.length l) 64 l.

(** The message schedule, most recent word first. *)
Fixpoint extend (n : nat) (ws : list Z) : list Z :=
  match n with
  | O => ws
  | S k =>
      let w := add32 (add32 (sigma1 (nth 1 ws 0)) (nth 6 ws 0))
                     (add32 (sigma0 (nth 14 ws 0)) (nth 15 ws 0)) in
      extend k (w :: ws)
  end.

Definition schedule (block : bytes) : list Z :=
  rev (extend 48 (rev (map int_from_bytes (pieces 16 4 block)))).

Definition round (s : regs) (kw : Z * Z) : regs :=
  let '(k, w) := kw in
  let t1 := add32 (add32 (add32 (rh s) (Sigma1 (re s)))
                         (add32 (Ch (re s) (rf s) (rg s)) k)) w in
  let t2 := add32 (Sigma0 (ra s)) (Maj (ra s) (rb s) (rc s)) in
  Regs (add32 t1 t2) (ra s) (rb s) (rc s) (add32 (rd s) t1) (re s) (rf s) (rg s).

Definition compress (h : regs) (block : bytes) : regs :=
  let s := fold_left round (combine K (schedule block)) h in
  Regs (add32 (ra h) (ra s)) (add32 (rb h) (rb s))
       (add32 (rc h) (rc s)) (add32 (rd h) (rd s))
       (add32 (re h) (re s)) (add32 (rf h) (rf s))
       (add32 (rg h) (rg s)) (add32 (rh h) (rh s)).

Definition word_bytes (w : Z) : bytes :=
  [byte_of (Z.shiftr w 24); byte_of (Z.shiftr w 16); byte_of (Z.shiftr w 8); byte_of w].

Definition digest_bytes (h : regs) : bytes :=
  word_bytes (ra h) ++ word_bytes (rb h) ++ word_bytes (rc h) ++ word_bytes (rd h) ++
  word_bytes (re h) ++ word_bytes (rf h) ++ word_bytes (rg h) ++ word_bytes (rh h).

(** [hashlib.sha256(m).digest()] *)
Definition sha256 (m : bytes) : bytes :=
  digest_bytes (fold_left compress (blocks (pad m)) H0).

End SHA256.

(** ** [hmac.new(key, msg, hashlib.sha256).digest()] (RFC 2104) *)

Module HMAC.

Definition block_size : nat := 64.

Definition xor_byte (c : Z) (b : byte) : byte := byte_of (Z.lxor (byte_val b) c).

(** Keys longer than a block are hashed first; the key is then filled
    with zero bytes up to the block size. *)
Definition block_key (key : bytes) : bytes :=
  let k := if Nat.ltb block_size (List.length key) then SHA256.sha256 key else key in
  k ++ repeat x00 (block_size - List.length k).

Definition hmac_sha256 (key msg : bytes) : bytes :=
  let k := block_key key in
  SHA256.sha256 (map (xor_byte 0x5c) k ++ SHA256.sha256 (map (xor_byte 0x36) k ++ msg)).

End HMAC.

(** ** Python [str] methods *)

(** [Py_UNICODE_ISSPACE]: the code points [str.strip] and [str.split]
    treat as whitespace. *)
Definition isspace (c : Z) : bool :=
  ((0x09 <=? c) && (c <=? 0x0D)) || ((0x1C <=? c) && (c <=? 0x20)) ||
  (c =? 0x85) || (c =? 0xA0) || (c =? 0x1680) ||
  ((0x2000 <=? c) && (c <=? 0x200A)) ||
  (c =? 0x2028) || (c =? 0x2029) || (c =? 0x202F) || (c =? 0x205F) || (c =? 0x3000).

Fixpoint lstrip (s : str) : str :=
  match s with
  | [] => []
  | c :: r => if isspace c then lstrip r else s
  end.

Definition rstrip (s : str) : str := rev (lstrip (rev s)).

(** [s.strip()] *)
Definition str_strip (s : str) : str := rstrip (lstrip s).

(** The scan of [s.split()]: [tok] is the token being read, last code
    point first. *)
Fixpoint split_from (tok : str) (s : str) : list str :=
  match s with
  | [] => match tok with [] => [] | _ => [rev tok] end
  | c :: r =>
      if isspace c then
        match tok with
        | [] => split_from [] r
        | _ => rev tok :: split_from [] r
        end
      else split_from (c :: tok) r
  end.

(** [s.split()] *)
Definition str_split (s : str) : list str := split_from [] s.

(** [sep.join(items)] *)
Fixpoint str_join (sep : str) (items : list str) : str :=
  match items with
  | [] => []
  | [x] => x
  | x :: r => x ++ sep ++ str_join sep r
  end.

(** The UTF-8 encoding of one code point; surrogates cannot be encoded. *)
Definition utf8_char (c : Z) : outcome bytes :=
  if (c <? 0) || (0x10FFFF <? c) then Raise UnicodeEncodeError
  else if c <? 0x80 then Ok [byte_of c]
  else if c <? 0x800 then
    Ok [byte_of (Z.lor 0xC0 (Z.shiftr c 6)); byte_of (Z.lor 0x80 (Z.land c 0x3F))]
  else if (0xD800 <=? c) && (c <=? 0xDFFF) then Raise UnicodeEncodeError
  else if c <? 0x10000 then
    Ok [byte_of (Z.lor 0xE0 (Z.shiftr c 12));
        byte_of (Z.lor 0x80 (Z.land (Z.shiftr c 6) 0x3F));
        byte_of (Z.lor 0x80 (Z.land c 0x3F))]
  else
    Ok [byte_of (Z.lor 0xF0 (Z.shiftr c 18));
        byte_of (Z.lor 0x80 (Z.land (Z.shiftr c 12) 0x3F));
        byte_of (Z.lor 0x80 (Z.land (Z.shiftr c 6) 0x3F));
        byte_of (Z.lor 0x80 (Z.land c 0x3F))].

(** [s.encode("utf-8")] *)
Fixpoint str_encode (s : str) : outcome bytes :=
  match s with
  | [] => Ok []
  | c :: r =>
      b <- utf8_char c ;;
      bs <- str_encode r ;;
      Ok (b ++ bs)
  end.

(** [a % b] *)
Definition py_mod (a b : Z) : outcome Z :=
  if b =? 0 then Raise ZeroDivisionError else Ok (a mod b).

(** [l[i]] *)
Definition list_getitem {A : Type} (l : list A) (i : Z) : outcome A :=
  let n := Z.of_nat (List.length l) in
  let j := if i <? 0 then i + n else i in
  if j <? 0 then Raise IndexError
  else match nth_error l (Z.to_nat j) with
       | Some x => Ok x
       | None => Raise IndexError
       end.

(** [[f(x) for x in l]] *)
Fixpoint comprehension {A B : Type} (f : A -> outcome B) (l : list A) : outcome (list B) :=
  match l with
  | [] => Ok []
  | x :: r =>
      y <- f x ;;
      ys <- comprehension f r ;;
      Ok (y :: ys)
  end.

(** ** The Unicode character database

    [str.lower], [str.casefold] and [unicodedata.normalize("NFKC", .)]
    are driven by the tables of the Unicode character database; the
    pipeline is stated over any implementation of them. *)
Class UnicodeData : Type := {
  str_lower : str -> str;
  str_casefold : str -> str;
  nfkc : str -> str
}.

(** An excerpt of the database (Unicode 14): exact on strings over
    U+0000..U+00FF and U+2102; every other code point is passed through
    unchanged. *)
Module UCD.

Definition lower_cp (c : Z) : str :=
  if (0x41 <=? c) && (c <=? 0x5A) then [c + 32]
  else if (0xC0 <=? c) && (c <=? 0xDE) && negb (c =? 0xD7) then [c + 32]
  else [c].

Definition casefold_cp (c : Z) : str :=
  if c =? 0xB5 then [0x3BC]
  else if c =? 0xDF then [0x73; 0x73]
  else lower_cp c.

Definition nfkc_cp (c : Z) : str :=
  if c =? 0xA0 then [0x20]
  else if c =? 0xA8 then [0x20; 0x308]
  else if c =? 0xAA then [0x61]
  else if c =? 0xAF then [0x20; 0x304]
  else if c =? 0xB2 then [0x32]
  else if c =? 0xB3 then [0x33]
  else if c =? 0xB4 then [0x20; 0x301]
  else if c =? 0xB5 then [0x3BC]
  else if c =? 0xB8 then [0x20; 0x327]
  else if c =? 0xB9 then [0x31]
  else if c =? 0xBA then [0x6F]
  else if c =? 0xBC then [0x31; 0x2044; 0x34]
  else if c =? 0xBD then [0x31; 0x2044; 0x32]
  else if c =? 0xBE then [0x33; 0x2044; 0x34]
  else if c =? 0x2102 then [0x43]
  else [c].

#[export] Instance excerpt : UnicodeData := {
  str_lower := flat_map lower_cp;
  str_casefold := flat_map casefold_cp;
  nfkc := flat_map nfkc_cp
}.

End UCD.

(** ** [core.py] *)

Section Core.

Context {U : UnicodeData}.

Definition _normalize (s : str) : str :=
  let s := nfkc (str_lower (str_strip s)) in
  str_join (lit " ") (str_split s).

Definition _hmac_sha256 (key : bytes) (msg : str) : outcome bytes :=
  m <- str_encode (_normalize msg) ;;
  Ok (HMAC.hmac_sha256 key m).

End Core.

(** The [for] loop of [_bytes_to_indices] over one pool: the state is
    [(needed, out)]. *)
Fixpoint scan_pool (vocab_size : Z) (pool : bytes) (needed : Z) (out : list Z)
  : outcome (Z * list Z) :=
  match pool with
  | b0 :: b1 :: b2 :: b3 :: rest =>
      let val := int_from_bytes [b0; b1; b2; b3] in
      r <- py_mod val vocab_size ;;
      let out := out ++ [r] in
      let needed := needed - 1 in
      if needed =? 0 then Ok (needed, out)
      else scan_pool vocab_size rest needed out
  | _ => Ok (needed, out)
  end.

(** The [while] loop of [_bytes_to_indices]; [fuel] bounds the number of
    times its body runs. *)
Fixpoint while_needed (fuel : nat) (vocab_size : Z) (pool : bytes) (ctr needed : Z)
  (out : list Z) : outcome (list Z) :=
  if needed >? 0 then
    match fuel with
    | O => Timeout
    | S fuel' =>
        st <- scan_pool vocab_size pool needed out ;;
        let '(needed, out) := st in
        pc <- (if needed >? 0 then
                 let ctr := ctr + 1 in
                 cb <- int_to_bytes ctr 2 ;;
                 Ok (SHA256.sha256 (pool ++ cb), ctr)
               else Ok (pool, ctr)) ;;
        let '(pool, ctr) := pc in
        while_needed fuel' vocab_size pool ctr needed out
    end
  else Ok out.

Definition _bytes_to_indices (b : bytes) (vocab_size n : Z) : outcome (list Z) :=
  while_needed (S (Z.to_nat n)) vocab_size b 0 n [].

(** [string.digits + string.ascii_uppercase] *)
Definition chars : str := lit "0123456789" ++ lit "ABCDEFGHIJKLMNOPQRSTUVWXYZ".

(** The [for] loop of [_checksum_base36]: the state is [(num, out)].
    [num mod 36] is always an index of [chars]. *)
Fixpoint checksum_loop (k : nat) (num : Z) (out : str) : str :=
  match k with
  | O => out
  | S k' => checksum_loop k' (num / 36) (nth (Z.to_nat (num mod 36)) chars 0 :: out)
  end.

Definition _checksum_base36 (b : bytes) (length : Z) : str :=
  let num := int_from_bytes (SHA256.sha256 b) in
  checksum_loop (Z.to_nat length) num [].

Section Api.

Context {U : UnicodeData}.

Definition friendly_id (user_input secret_salt : str) (wordlist : list str)
  (n_words checksum_len : Z) (sep : str) : outcome str :=
  if n_words <? 2 then Raise ValueError
  else
    key <- str_encode secret_salt ;;
    digest <- _hmac_sha256 key user_input ;;
    idxs <- _bytes_to_indices digest (Z.of_nat (List.length wordlist)) n_words ;;
    words <- comprehension (list_getitem wordlist) idxs ;;
    let check := _checksum_base36 digest checksum_len in
    Ok (str_join sep (if checksum_len >? 0 then words ++ [check] else words)).

End Api.

(** ** The specification's descriptions *)

(** The complete 4-byte chunks of a pool, in order; a shorter trailing
    chunk is dropped. *)
Fixpoint chunks4 (pool : bytes) : list bytes :=
  match pool with
  | b0 :: b1 :: b2 :: b3 :: rest => [b0; b1; b2; b3] :: chunks4 rest
  | _ => []
  end.

(** The values one pool yields: each chunk as a big-endian unsigned
    integer, reduced modulo [modulus]. *)
Definition pool_values (modulus : Z) (pool : bytes) : list Z :=
  map (fun c => int_from_bytes c mod modulus) (chunks4 pool).

(** The first [k] pools from [pool] on, [ctr] extensions having been made
    before: each next pool is the SHA-256 hash of the current pool followed
    by the next counter value on 2 bytes, big-endian. *)
Fixpoint next_pools (pool : bytes) (ctr : Z) (k : nat) : list bytes :=
  match k with
  | O => []
  | S j => pool :: next_pools (SHA256.sha256 (pool ++ be_digits 2 (ctr + 1))) (ctr + 1) j
  end.

(** The expander of section 4.3: the first [count] values of the pools
    starting from the seed, in production order. *)
Definition expand_spec (seed : bytes) (modulus count : Z) : list Z :=
  firstn (Z.to_nat count)
         (flat_map (pool_values modulus) (next_pools seed 0 (S (Z.to_nat count)))).

(** The number of complete chunks of a pool. *)
Definition capacity (pool : bytes) : Z := Z.of_nat (List.length pool) / 4.

(** Digit [i] (the least significant is digit 0) of [num] in base 36, as a
    character of the alphabet. *)
Definition digit36 (num : Z) (i : nat) : Z :=
  nth (Z.to_nat ((num / 36 ^ Z.of_nat i) mod 36)) chars 0.

(** The checksum of section 4.4: the [length] low-order base-36 digits of
    the hash, most significant first. *)
Definition checksum_spec (digest_input : bytes) (length : Z) : str :=
  map (digit36 (int_from_bytes (SHA256.sha256 digest_input)))
      (rev (seq 0 (Z.to_nat length))).

Definition base36_char (c : Z) : Prop := 48 <= c <= 57 \/ 65 <= c <= 90.

(** Whitespace collapsing: [emitted] says that a token has been copied,
    [gap] that whitespace was met since.  A run of whitespace between two
    tokens becomes one U+0020; a run at either end disappears. *)
Fixpoint collapse (emitted gap : bool) (s : str) : str :=
  match s with
  | [] => []
  | c :: r =>
      if isspace c then collapse emitted emitted r
      else (if gap then [0x20] else []) ++ c :: collapse true false r
  end.

Definition collapse_ws (s : str) : str := collapse false false s.

(** The normalizer as section 4.1 words it: strip, case-fold, NFKC,
    collapse whitespace. *)
Definition normalize_spec {U : UnicodeData} (s : str) : str :=
  collapse_ws (nfkc (str_casefold (str_strip s))).

(** Code points that have a UTF-8 encoding: all but the surrogates. *)
Definition scalar_value (c : Z) : Prop :=
  0 <= c < 0xD800 \/ 0xDFFF < c <= 0x10FFFF.

Definition is_scalar (c : Z) : bool :=
  ((0 <=? c) && (c <? 0xD800)) || ((0xDFFF <? c) && (c <=? 0x10FFFF)).

(** A whitespace-normal string: no whitespace at either end, and inside
    only single U+0020. *)
Fixpoint spaced (prev_space : bool) (s : str) : bool :=
  match s with
  | [] => negb prev_space
  | c :: r =>
      if isspace c then negb prev_space && (c =? 0x20) && spaced true r
      else spaced false r
  end.

Definition ws_normal (s : str) : bool :=
  match s with
  | [] => true
  | _ => spaced true s
  end.

Definition is_ascii (c : Z) : bool := (0 <=? c) && (c <? 0x80).

(** Lowercasing of an ASCII code point. *)
Definition ascii_lower (c : Z) : Z :=
  if (0x41 <=? c) && (c <=? 0x5A) then c + 32 else c.

(** An ASCII code point that lowercasing leaves alone. *)
Definition lower_ascii (c : Z) : Prop := is_ascii c = true /\ ascii_lower c = c.

(** What every Unicode database says of ASCII strings: lowercasing acts
    letter by letter on A-Z only, and NFKC changes nothing. *)
Definition ascii_exact (U : UnicodeData) : Prop :=
  forall s, Forall (fun c => is_ascii c = true) s ->
    str_lower s = map ascii_lower s /\ nfkc s = s.

(** ** Test data *)

(** A wordlist of 512 distinct three-letter words, [aaa] to [ats]. *)
Definition word_of (i : nat) : str :=
  let z := Z.of_nat i in
  [97 + z / 676; 97 + (z / 26) mod 26; 97 + z mod 26].

Definition wordlist512 : list str := map word_of (seq 0 512).

Definition hex_digit (c : Z) : Z :=
  if c <? 58 then c - 48 else c - 87.

(** A string of hexadecimal digits as [bytes]. *)
Fixpoint unhex (s : str) : bytes :=
  match s with
  | hi :: lo :: r => byte_of (16 * hex_digit hi + hex_digit lo) :: unhex r
  | _ => []
  end.

(** ** The wordlist loader and the salt generator of [core.py] *)

(** [s.startswith(prefix)] *)
Fixpoint startswith (prefix s : str) : bool :=
  match prefix, s with
  | [], _ => true
  | _ :: _, [] => false
  | a :: p, b :: r => (a =? b) && startswith p r
  end.

Definition str_eq_dec : forall a b : str, {a = b} + {a <> b} :=
  list_eq_dec Z.eq_dec.

(** [len(set(l))]: the number of distinct strings of [l]. *)
Definition len_set (l : list str) : nat := List.length (nodup str_eq_dec l).

(** The [for] loop of [load_wordlist] over the lines read from the file;
    the state is [vocab]. *)
Fixpoint read_lines (lines : list str) (vocab : list str) : outcome (list str) :=
  match lines with
  | [] => Ok vocab
  | line :: rest =>
      let line := str_strip line in
      if match line with [] => true | _ => false end || startswith (lit "#") line
      then read_lines rest vocab
      else
        token <- list_getitem (str_split line) (-1) ;;
        read_lines rest (vocab ++ [token])
  end.

(** [load_wordlist], from the lines of the file at [path]. *)
Definition load_wordlist (lines : list str) : outcome (list str) :=
  vocab <- read_lines lines [] ;;
  if Z.of_nat (List.length vocab) <? 512 then Raise ValueError
  else if negb (Nat.eqb (List.length vocab) (len_set vocab)) then Raise ValueError
  else Ok vocab.

(** [b.hex()] *)
Definition hexdigits : str := lit "0123456789abcdef".

Definition byte_hex (x : byte) : str :=
  [nth (Z.to_nat (byte_val x / 16)) hexdigits 0;
   nth (Z.to_nat (byte_val x mod 16)) hexdigits 0].

Definition bytes_hex (b : bytes) : str := flat_map byte_hex b.

(** [create_salt_digest]; [urandom] stands for [os.urandom], the entropy
    source of the operating system. *)
Definition create_salt_digest (urandom : Z -> outcome bytes) (byte_length : Z)
  : outcome str :=
  b <- urandom byte_length ;;
  Ok (bytes_hex b).

(** A word as [split] produces them: not empty, no whitespace. *)
Definition is_token (w : str) : Prop :=
  w <> [] /\ Forall (fun c => isspace c = false) w.

Definition is_hexdigit (c : Z) : Prop := 48 <= c <= 57 \/ 97 <= c <= 102.

(** ** The list objects of a call

    Python lists are mutable objects that variables refer to: the
    [wordlist] argument is a reference to a list shared with the caller,
    and [_bytes_to_indices] and [friendly_id] build their lists ([out],
    [words], [[check]], [words + [check]]) by allocation and [append].
    Strings, bytes and integers are immutable values.  The store holds the
    lists of integers and the lists of strings; a reference is a position
    in the store. *)

Record store : Type := Store {
  int_lists : list (list Z);
  str_lists : list (list str)
}.

(** A computation that reads and updates the store, and may raise. *)
Definition M (A : Type) : Type := store -> outcome A * store.

Definition ret {A : Type} (a : A) : M A := fun h => (Ok a, h).

(** A step that does not touch the store. *)
Definition lift {A : Type} (o : outcome A) : M A := fun h => (o, h).

Definition bindM {A B : Type} (m : M A) (k : A -> M B) : M B :=
  fun h =>
    match m h with
    | (Ok a, h') => k a h'
    | (Raise e, h') => (Raise e, h')
    | (Timeout, h') => (Timeout, h')
    end.

Notation "x <~ m ;; k" := (bindM m (fun x => k))
  (at level 61, m at next level, right associativity).

(** Replace element [i] of a list. *)
Fixpoint set_nth {A : Type} (i : nat) (x : A) (l : list A) : list A :=
  match l, i with
  | [], _ => []
  | _ :: r, O => x :: r
  | y :: r, S j => y :: set_nth j x r
  end.

(** A new list of integers: the reference is the next free position. *)
Definition new_ints (l : list Z) : M nat :=
  fun h => (Ok (List.length (int_lists h)),
            Store (int_lists h ++ [l]) (str_lists h)).

(** [r.append(v)] on a list of integers. *)
Definition append_int (r : nat) (v : Z) : M unit :=
  fun h => (Ok tt,
            Store (set_nth r (nth r (int_lists h) [] ++ [v]) (int_lists h))
                  (str_lists h)).

Definition read_ints (r : nat) : M (list Z) :=
  fun h => (Ok (nth r (int_lists h) []), h).

Definition new_strs (l : list str) : M nat :=
  fun h => (Ok (List.length (str_lists h)),
            Store (int_lists h) (str_lists h ++ [l])).

(** [r.append(w)] on a list of strings. *)
Definition append_str (r : nat) (w : str) : M unit :=
  fun h => (Ok tt,
            Store (int_lists h)
                  (set_nth r (nth r (str_lists h) [] ++ [w]) (str_lists h))).

Definition read_strs (r : nat) : M (list str) :=
  fun h => (Ok (nth r (str_lists h) []), h).

(** The [for] loop of [_bytes_to_indices] over one pool, [out] being a
    reference: [out.append(val % vocab_size)] updates the store; the loop
    state left is [needed]. *)
Fixpoint scan_pool_st (vocab_size : Z) (pool : bytes) (needed : Z) (out : nat)
  : M Z :=
  match pool with
  | b0 :: b1 :: b2 :: b3 :: rest =>
      let val := int_from_bytes [b0; b1; b2; b3] in
      r <~ lift (py_mod val vocab_size) ;;
      _ <~ append_int out r ;;
      let needed := needed - 1 in
      if needed =? 0 then ret needed
      else scan_pool_st vocab_size rest needed out
  | _ => ret needed
  end.

Fixpoint while_needed_st (fuel : nat) (vocab_size : Z) (pool : bytes)
  (ctr needed : Z) (out : nat) : M unit :=
  if needed >? 0 then
    match fuel with
    | O => lift Timeout
    | S fuel' =>
        needed <~ scan_pool_st vocab_size pool needed out ;;
        pc <~ (if needed >? 0 then
                 let ctr := ctr + 1 in
                 cb <~ lift (int_to_bytes ctr 2) ;;
                 ret (SHA256.sha256 (pool ++ cb), ctr)
               else ret (pool, ctr)) ;;
        let '(pool, ctr) := pc in
        while_needed_st fuel' vocab_size pool ctr needed out
    end
  else ret tt.

(** [_bytes_to_indices]: [out = []] allocates the list that is returned. *)
Definition _bytes_to_indices_st (b : bytes) (vocab_size n : Z) : M nat :=
  out <~ new_ints [] ;;
  _ <~ while_needed_st (S (Z.to_nat n)) vocab_size b 0 n out ;;
  ret out.

(** The loop of the comprehension [[wordlist[i] for i in idxs]]: each
    [wordlist[i]] reads the list object of the caller, each word is appended
    to the new list [words]. *)
Fixpoint words_loop (wordlist words : nat) (idxs : list Z) : M unit :=
  match idxs with
  | [] => ret tt
  | i :: rest =>
      wl <~ read_strs wordlist ;;
      w <~ lift (list_getitem wl i) ;;
      _ <~ append_str words w ;;
      words_loop wordlist words rest
  end.

Section ApiStore.

Context {U : UnicodeData}.

(** [friendly_id], the wordlist being a reference to a list object. *)
Definition friendly_id_st (user_input secret_salt : str) (wordlist : nat)
  (n_words checksum_len : Z) (sep : str) : M str :=
  if n_words <? 2 then lift (Raise ValueError)
  else
    key <~ lift (str_encode secret_salt) ;;
    digest <~ lift (_hmac_sha256 key user_input) ;;
    wl <~ read_strs wordlist ;;
    idxs <~ _bytes_to_indices_st digest (Z.of_nat (List.length wl)) n_words ;;
    ixs <~ read_ints idxs ;;
    words <~ new_strs [] ;;
    _ <~ words_loop wordlist words ixs ;;
    let check := _checksum_base36 digest checksum_len in
    tokens <~ (if checksum_len >? 0 then
                 single <~ new_strs [check] ;;
                 a <~ read_strs words ;;
                 b <~ read_strs single ;;
                 new_strs (a ++ b)
               else ret words) ;;
    l <~ read_strs tokens ;;
    ret (str_join sep l).

End ApiStore.

(** Forgetting the value of a result. *)
Definition outcome_map {A B : Type} (f : A -> B) (o : outcome A) : outcome B :=
  match o with
  | Ok a => Ok (f a)
  | Raise e => Raise e
  | Timeout => Timeout
  end.

(** * Properties *)

(** ** Test vectors for the library functions *)

Example sha256_constants :
  List.length SHA256.K = 64%nat
  /\ nth 0 SHA256.K 0 = 0x428a2f98 /\ nth 63 SHA256.K 0 = 0xc67178f2
  /\ SHA256.ra SHA256.H0 = 0x6a09e667 /\ SHA256.rh SHA256.H0 = 0x5be0cd19.
Proof. repeat split; reflexivity. Qed.

Example sha256_abc :
  SHA256.sha256 (blit "abc")
  = unhex (lit "ba7816bf8f01cfea414140de5dae2223b00361a396177a9cb410ff61f20015ad").
Proof. vm_compute. reflexivity. Qed.

Example sha256_empty :
  SHA256.sha256 []
  = unhex (lit "e3b0c44298fc1c149afbf4c8996fb92427ae41e4649b934ca495991b7852b855").
Proof. vm_compute. reflexivity. Qed.

Example sha256_two_blocks :
  SHA256.sha256 (blit "abcdbcdecdefdefgefghfghighijhijkijkljklmklmnlmnomnopnopq")
  = unhex (lit "248d6a61d20638b8e5c026930c3e6039a33ce45964ff2167f6ecedd419db06c1").
Proof. vm_compute. reflexivity. Qed.

Example hmac_rfc4231_case2 :
  HMAC.hmac_sha256 (blit "Jefe") (blit "what do ya want for nothing?")
  = unhex (lit "5bdcc146bf60754e6a042426089575c75a003f089d2739839dec58b964ec3843").
Proof. vm_compute. reflexivity. Qed.

Example utf8_sample :
  str_encode [0x41; 0xE9; 0x20AC; 0x1F600]
  = Ok (unhex (lit "41c3a9e282acf09f9880")).
Proof. vm_compute. reflexivity. Qed.

Example utf8_surrogate : str_encode [0x61; 0xD800] = Raise UnicodeEncodeError.
Proof. reflexivity. Qed.

Example split_sample :
  str_split (lit "  ab   c d  ") = [lit "ab"; lit "c"; lit "d"].
Proof. reflexivity. Qed.

Example normalize_sample :
  _normalize (U := UCD.excerpt) (lit "  Hello   World ") = lit "hello world".
Proof. vm_compute. reflexivity. Qed.

(** ** Bytes and integers *)

Lemma byte_val_range (b : byte) : 0 <= byte_val b < 256.
Proof.
  unfold byte_val. pose proof (Byte.to_N_bounded b) as H.
  change (Byte.to_N b <= 255)%N in H. lia.
Qed.

(** A 4-byte chunk read big-endian is an unsigned 32-bit integer. *)
Lemma int_from_bytes_chunk (a b c d : byte) :
  int_from_bytes [a; b; c; d]
  = byte_val a * 2 ^ 24 + byte_val b * 2 ^ 16 + byte_val c * 2 ^ 8 + byte_val d
  /\ 0 <= int_from_bytes [a; b; c; d] < 2 ^ 32.
Proof.
  pose proof (byte_val_range a). pose proof (byte_val_range b).
  pose proof (byte_val_range c). pose proof (byte_val_range d).
  unfold int_from_bytes. cbn [fold_left]. lia.
Qed.

Lemma be_digits_length (len : nat) (n : Z) : List.length (be_digits len n) = len.
Proof.
  revert n. induction len as [|k IH]; intros n; simpl.
  - reflexivity.
  - rewrite length_app, IH. simpl. lia.
Qed.

Lemma int_to_bytes_ok (n : Z) :
  0 <= n <= 65535 -> int_to_bytes n 2 = Ok (be_digits 2 n).
Proof.
  intros Hn. unfold int_to_bytes.
  replace (n <? 0) with false by (symmetry; apply Z.ltb_ge; lia).
  replace (256 ^ Z.of_nat 2 <=? n) with false
    by (symmetry; apply Z.leb_gt; change (256 ^ Z.of_nat 2) with 65536; lia).
  reflexivity.
Qed.

Lemma int_to_bytes_overflow (n : Z) :
  65535 < n -> int_to_bytes n 2 = Raise OverflowError.
Proof.
  intros Hn. unfold int_to_bytes.
  replace (256 ^ Z.of_nat 2 <=? n) with true
    by (symmetry; apply Z.leb_le; change (256 ^ Z.of_nat 2) with 65536; lia).
  rewrite orb_true_r. reflexivity.
Qed.

(** ** The hash functions return 32 bytes *)

Lemma sha256_length (m : bytes) : List.length (SHA256.sha256 m) = 32%nat.
Proof.
  unfold SHA256.sha256, SHA256.digest_bytes, SHA256.word_bytes.
  generalize (fold_left SHA256.compress (SHA256.blocks (SHA256.pad m)) SHA256.H0).
  intros h. reflexivity.
Qed.

Lemma hmac_sha256_length (key msg : bytes) :
  List.length (HMAC.hmac_sha256 key msg) = 32%nat.
Proof. unfold HMAC.hmac_sha256. apply sha256_length. Qed.

(** ** Pools and chunks *)

Lemma chunk_ind (P : bytes -> Prop) :
  (forall l, (List.length l < 4)%nat -> P l) ->
  (forall a b c d r, P r -> P (a :: b :: c :: d :: r)) ->
  forall l, P l.
Proof.
  intros Hshort Hchunk. fix IH 1.
  intros [|a [|b [|c [|d r]]]]; try (apply Hshort; simpl; lia).
  apply Hchunk. apply IH.
Qed.

Lemma chunks4_short (l : bytes) : (List.length l < 4)%nat -> chunks4 l = [].
Proof.
  destruct l as [|a [|b [|c [|d r]]]]; simpl; intros H; try reflexivity; lia.
Qed.

Lemma scan_pool_short (m : Z) (l : bytes) (needed : Z) (out : list Z) :
  (List.length l < 4)%nat -> scan_pool m l needed out = Ok (needed, out).
Proof.
  destruct l as [|a [|b [|c [|d r]]]]; simpl; intros H; try reflexivity; lia.
Qed.

Lemma chunks4_length (l : bytes) :
  Z.of_nat (List.length (chunks4 l)) = capacity l.
Proof.
  unfold capacity. induction l as [l Hl | a b c d r IH] using chunk_ind.
  - rewrite chunks4_short by exact Hl. simpl.
    symmetry. apply Z.div_small. lia.
  - cbn [chunks4 List.length]. 
    replace (Z.of_nat (S (S (S (S (List.length r))))))
      with (1 * 4 + Z.of_nat (List.length r)) by lia.
    rewrite Z.div_add_l by lia. lia.
Qed.

Lemma pool_values_length (m : Z) (l : bytes) :
  Z.of_nat (List.length (pool_values m l)) = capacity l.
Proof. unfold pool_values. rewrite length_map. apply chunks4_length. Qed.

Lemma capacity_nonneg (l : bytes) : 0 <= capacity l.
Proof. unfold capacity. apply Z.div_pos; lia. Qed.

Lemma capacity_sha256 (x : bytes) : capacity (SHA256.sha256 x) = 8.
Proof. unfold capacity. rewrite sha256_length. reflexivity. Qed.

(** One pass of the [for] loop copies the first values of the pool, as
    many as are needed and available. *)
Lemma scan_pool_spec (m : Z) (pool : bytes) :
  m <> 0 ->
  forall needed out, 1 <= needed ->
    let k := Nat.min (Z.to_nat needed) (List.length (chunks4 pool)) in
    scan_pool m pool needed out
    = Ok (needed - Z.of_nat k, out ++ firstn k (pool_values m pool)).
Proof.
  intros Hm. induction pool as [l Hl | a b c d r IH] using chunk_ind;
    intros needed out Hn k; subst k.
  - rewrite scan_pool_short by exact Hl.
    unfold pool_values. rewrite chunks4_short by exact Hl.
    rewrite Nat.min_0_r. simpl. rewrite app_nil_r, Z.sub_0_r. reflexivity.
  - cbn [scan_pool chunks4 List.length].
    unfold py_mod. destruct (Z.eqb_spec m 0) as [|_]; [contradiction|].
    cbn [bind].
    destruct (Z.eqb_spec (needed - 1) 0) as [H1|H1].
    + replace (Z.to_nat needed) with 1%nat by lia.
      cbn [Nat.min]. unfold pool_values. cbn [chunks4 map firstn].
      repeat f_equal; lia.
    + rewrite IH by lia.
      replace (Z.to_nat needed) with (S (Z.to_nat (needed - 1))) by lia.
      cbn [Nat.min]. unfold pool_values at 2. cbn [chunks4 map firstn].
      fold (pool_values m r). rewrite <- app_assoc. cbn [app].
      do 2 f_equal. lia.
Qed.

Lemma next_pools_prefix (r1 r2 : nat) :
  forall p c, exists tail, next_pools p c (r1 + r2) = next_pools p c r1 ++ tail.
Proof.
  induction r1 as [|r1 IH]; intros p c; cbn [Nat.add next_pools].
  - eexists. reflexivity.
  - destruct (IH (SHA256.sha256 (p ++ be_digits 2 (c + 1))) (c + 1)) as [t Ht].
    exists t. rewrite Ht. reflexivity.
Qed.

Lemma stream_length (m : Z) (r : nat) :
  forall p c, capacity p = 8 ->
    List.length (flat_map (pool_values m) (next_pools p c r)) = (8 * r)%nat.
Proof.
  induction r as [|r IH]; intros p c Hp; cbn [next_pools flat_map].
  - reflexivity.
  - rewrite length_app, IH by apply capacity_sha256.
    pose proof (pool_values_length m p). lia.
Qed.

Lemma stream_longer (m : Z) (j r1 r2 : nat) (p : bytes) (c : Z) :
  capacity p = 8 -> (j <= 8 * r1)%nat -> (r1 <= r2)%nat ->
  firstn j (flat_map (pool_values m) (next_pools p c r2))
  = firstn j (flat_map (pool_values m) (next_pools p c r1)).
Proof.
  intros Hp Hj Hr.
  replace r2 with (r1 + (r2 - r1))%nat by lia.
  destruct (next_pools_prefix r1 (r2 - r1) p c) as [t Ht].
  rewrite Ht, flat_map_app, firstn_app.
  rewrite (stream_length m r1 p c Hp).
  replace (j - 8 * r1)%nat with 0%nat by lia.
  cbn [firstn]. apply app_nil_r.
Qed.

(** A prefix of the value stream does not depend on how many pools are
    laid out, once they hold enough values. *)
Lemma stream_stable (m : Z) (j r1 r2 : nat) (p : bytes) (c : Z) :
  capacity p = 8 -> (j <= 8 * r1)%nat -> (j <= 8 * r2)%nat ->
  firstn j (flat_map (pool_values m) (next_pools p c r1))
  = firstn j (flat_map (pool_values m) (next_pools p c r2)).
Proof.
  intros Hp H1 H2. destruct (Nat.le_ge_cases r1 r2) as [H|H].
  - symmetry. apply stream_longer; assumption.
  - apply stream_longer; assumption.
Qed.

(** ** The [while] loop of [_bytes_to_indices] *)

(** When the counter can cover the extensions that are needed, the loop
    returns the values of the successive pools, in order. *)
Lemma while_needed_spec (m : Z) (fuel : nat) :
  m <> 0 ->
  forall pool ctr needed out,
    0 <= ctr <= 65535 -> 0 <= needed ->
    needed <= capacity pool + 8 * (65535 - ctr) ->
    (Z.to_nat needed + (if (capacity pool =? 0)%Z then 1 else 0) <= fuel)%nat ->
    while_needed fuel m pool ctr needed out
    = Ok (out ++ firstn (Z.to_nat needed)
                   (flat_map (pool_values m)
                             (next_pools pool ctr (S (Z.to_nat needed))))).
Proof.
  intros Hm. induction fuel as [|fuel IH]; intros pool ctr needed out Hc Hn Hcap Hf.
  - assert (needed = 0) by lia. subst needed. cbn. rewrite app_nil_r. reflexivity.
  - cbn [while_needed].
    destruct (Z.gtb_spec needed 0) as [Hpos|Hzero].
    2:{ replace (Z.to_nat needed) with 0%nat by lia.
        cbn [firstn]. rewrite app_nil_r. reflexivity. }
    rewrite scan_pool_spec by lia. cbn [bind].
    pose proof (chunks4_length pool) as Hlen.
    pose proof (pool_values_length m pool) as Hvl.
    pose proof (capacity_nonneg pool) as Hc0.
    set (k := Nat.min (Z.to_nat needed) (List.length (chunks4 pool))).
    cbn [next_pools flat_map]. rewrite firstn_app.
    destruct (Z.gtb_spec (needed - Z.of_nat k) 0) as [Hmore|Hdone].
    + (* the pool is used up: extend *)
      assert (Hk : Z.of_nat k = capacity pool) by lia.
      rewrite int_to_bytes_ok by lia. cbn [bind].
      rewrite IH; try lia.
      2:{ rewrite capacity_sha256. lia. }
      2:{ rewrite capacity_sha256. cbn [Z.eqb].
          destruct (Z.eqb_spec (capacity pool) 0); lia. }
      rewrite <- app_assoc. do 3 f_equal.
      * rewrite !firstn_all2 by lia. reflexivity.
      * replace (Z.to_nat needed - List.length (pool_values m pool))%nat
          with (Z.to_nat (needed - Z.of_nat k)) by lia.
        apply stream_stable; [apply capacity_sha256 | lia | lia].
    + (* enough values *)
      cbn [bind].
      destruct fuel as [|fuel']; cbn [while_needed];
        (destruct (Z.gtb_spec (needed - Z.of_nat k) 0) as [?|_]; [lia|]);
        f_equal; f_equal;
        replace (Z.to_nat needed - List.length (pool_values m pool))%nat
          with 0%nat by lia;
        cbn [firstn]; rewrite app_nil_r;
        f_equal; lia.
Qed.

(** When more extensions are needed than the 2-byte counter can number,
    [to_bytes] raises [OverflowError]. *)
Lemma while_needed_overflow (m : Z) (fuel : nat) :
  m <> 0 ->
  forall pool ctr needed out,
    0 <= ctr <= 65535 ->
    capacity pool + 8 * (65535 - ctr) < needed ->
    (Z.to_nat (65536 - ctr) <= fuel)%nat ->
    while_needed fuel m pool ctr needed out = Raise OverflowError.
Proof.
  intros Hm. induction fuel as [|fuel IH]; intros pool ctr needed out Hc Hcap Hf.
  - lia.
  - pose proof (capacity_nonneg pool) as Hc0.
    pose proof (chunks4_length pool) as Hlen.
    cbn [while_needed].
    destruct (Z.gtb_spec needed 0) as [Hpos|Hzero]; [|lia].
    rewrite scan_pool_spec by lia. cbn [bind].
    set (k := Nat.min (Z.to_nat needed) (List.length (chunks4 pool))).
    destruct (Z.gtb_spec (needed - Z.of_nat k) 0) as [Hmore|Hdone]; [|lia].
    destruct (Z.eq_dec ctr 65535) as [Hlast|Hnot].
    + rewrite int_to_bytes_overflow by lia. reflexivity.
    + rewrite int_to_bytes_ok by lia. cbn [bind].
      apply IH; try lia. rewrite capacity_sha256. lia.
Qed.

Lemma pool_values_range (m : Z) (p : bytes) :
  0 < m -> Forall (fun i => 0 <= i < m) (pool_values m p).
Proof.
  intros Hm. unfold pool_values. apply Forall_forall. intros i Hi.
  apply in_map_iff in Hi. destruct Hi as [c [<- _]].
  apply Z.mod_pos_bound. exact Hm.
Qed.

Lemma in_firstn {A : Type} (n : nat) (l : list A) (x : A) :
  In x (firstn n l) -> In x l.
Proof.
  intros H. rewrite <- (firstn_skipn n l). apply in_or_app. left. exact H.
Qed.

Lemma expand_spec_range (seed : bytes) (m count : Z) :
  0 < m -> Forall (fun i => 0 <= i < m) (expand_spec seed m count).
Proof.
  intros Hm. unfold expand_spec. apply Forall_forall. intros i Hi.
  apply in_firstn, in_flat_map in Hi. destruct Hi as [p [_ Hp]].
  pose proof (pool_values_range m p Hm) as Hr.
  rewrite Forall_forall in Hr. apply Hr. exact Hp.
Qed.

Lemma expand_spec_length (seed : bytes) (m count : Z) :
  List.length (expand_spec seed m count) = Z.to_nat count.
Proof.
  unfold expand_spec. apply firstn_length_le.
  cbn [next_pools flat_map]. rewrite length_app.
  rewrite stream_length by apply capacity_sha256. lia.
Qed.

Lemma bytes_to_indices_ok (seed : bytes) (m count : Z) :
  m <> 0 -> 0 <= count -> count <= capacity seed + 8 * 65535 ->
  _bytes_to_indices seed m count = Ok (expand_spec seed m count).
Proof.
  intros Hm H0 Hc. unfold _bytes_to_indices, expand_spec.
  rewrite while_needed_spec; try lia.
  - reflexivity.
  - destruct (capacity seed =? 0); lia.
Qed.

Lemma bytes_to_indices_overflow (seed : bytes) (m count : Z) :
  m <> 0 -> capacity seed + 8 * 65535 < count ->
  _bytes_to_indices seed m count = Raise OverflowError.
Proof.
  intros Hm Hc. unfold _bytes_to_indices.
  pose proof (capacity_nonneg seed).
  apply while_needed_overflow; lia.
Qed.

Lemma scan_pool_zero_modulus (p : bytes) (needed : Z) (out : list Z) :
  (4 <= List.length p)%nat -> scan_pool 0 p needed out = Raise ZeroDivisionError.
Proof.
  destruct p as [|a [|b [|c [|d r]]]]; cbn [List.length]; intros H; try lia.
  reflexivity.
Qed.

Lemma bytes_to_indices_zero_modulus (seed : bytes) (count : Z) :
  1 <= count -> _bytes_to_indices seed 0 count = Raise ZeroDivisionError.
Proof.
  intros Hc. unfold _bytes_to_indices. cbn [while_needed].
  destruct (Z.gtb_spec count 0) as [_|?]; [|lia].
  destruct (Nat.lt_ge_cases (List.length seed) 4) as [Hs|Hs].
  - rewrite scan_pool_short by exact Hs. cbn [bind].
    destruct (Z.gtb_spec count 0) as [_|?]; [|lia].
    rewrite int_to_bytes_ok by lia. cbn [bind].
    destruct (Z.to_nat count) as [|f] eqn:E; [lia|].
    cbn [while_needed].
    destruct (Z.gtb_spec count 0) as [_|?]; [|lia].
    rewrite scan_pool_zero_modulus by (rewrite sha256_length; lia).
    reflexivity.
  - rewrite scan_pool_zero_modulus by exact Hs. reflexivity.
Qed.

(** The iteration budget of the model is never the reason to stop: the
    loop ends by itself, with a result or with an exception. *)
Lemma bytes_to_indices_no_timeout (seed : bytes) (m count : Z) :
  _bytes_to_indices seed m count <> Timeout.
Proof.
  destruct (Z_le_gt_dec count 0) as [Hneg|Hpos].
  { unfold _bytes_to_indices. cbn [while_needed].
    destruct (Z.gtb_spec count 0) as [?|_]; [lia|discriminate]. }
  destruct (Z.eq_dec m 0) as [->|Hm].
  { rewrite bytes_to_indices_zero_modulus by lia. discriminate. }
  destruct (Z_le_gt_dec count (capacity seed + 8 * 65535)) as [Hle|Hgt].
  - rewrite bytes_to_indices_ok by (assumption || lia). discriminate.
  - rewrite bytes_to_indices_overflow by (assumption || lia). discriminate.
Qed.

(** ** Whitespace: [strip], [split] and [join] *)

Lemma str_join_cons (sep x : str) (l : list str) :
  str_join sep (x :: l)
  = match l with [] => x | _ => x ++ sep ++ str_join sep l end.
Proof. destruct l; reflexivity. Qed.

(** Joining the tokens of [split] by one space is whitespace collapsing. *)
Lemma join_split_from (s : str) :
  collapse true true s
  = match split_from [] s with
    | [] => []
    | l => [0x20] ++ str_join [0x20] l
    end
  /\ forall tok, tok <> [] ->
       split_from tok s <> []
       /\ str_join [0x20] (split_from tok s) = rev tok ++ collapse true false s.
Proof.
  induction s as [|c r [IHgap IHtok]].
  - split; [reflexivity|]. intros tok Htok.
    destruct tok as [|t tok]; [contradiction|].
    cbn [split_from collapse]. split; [discriminate|].
    cbn [str_join]. rewrite app_nil_r. reflexivity.
  - split.
    + cbn [collapse split_from]. destruct (isspace c).
      * exact IHgap.
      * destruct (IHtok [c]) as [Hne Hj]; [discriminate|].
        destruct (split_from [c] r) as [|x l] eqn:E; [contradiction|].
        rewrite Hj. reflexivity.
    + intros tok Htok. cbn [split_from collapse].
      destruct (isspace c).
      * destruct tok as [|t tok]; [contradiction|].
        split; [discriminate|].
        rewrite str_join_cons, IHgap.
        destruct (split_from [] r) as [|x l].
        -- rewrite app_nil_r. reflexivity.
        -- reflexivity.
      * destruct (IHtok (c :: tok)) as [Hne Hj]; [discriminate|].
        split; [exact Hne|].
        rewrite Hj. cbn [rev app]. rewrite <- app_assoc. reflexivity.
Qed.

Lemma join_split_collapse (s : str) :
  str_join (lit " ") (str_split s) = collapse_ws s.
Proof.
  change (lit " ") with [0x20]. unfold str_split, collapse_ws.
  induction s as [|c r IH].
  - reflexivity.
  - cbn [split_from collapse]. destruct (isspace c).
    + exact IH.
    + destruct (join_split_from r) as [_ Htok].
      destruct (Htok [c]) as [_ Hj]; [discriminate|].
      rewrite Hj. reflexivity.
Qed.

Lemma collapse_spaced (s : str) :
  spaced false (collapse true false s) = true
  /\ spaced false (collapse true true s) = true.
Proof.
  induction s as [|c r [IH1 IH2]].
  - split; reflexivity.
  - cbn [collapse]. destruct (isspace c) eqn:E.
    + split; exact IH2.
    + cbn [app spaced]. rewrite E.
      change (isspace 0x20) with true. cbn [negb andb Z.eqb Pos.eqb].
      split; exact IH1.
Qed.

Lemma collapse_ws_normal (s : str) : ws_normal (collapse_ws s) = true.
Proof.
  unfold collapse_ws. induction s as [|c r IH].
  - reflexivity.
  - cbn [collapse]. destruct (isspace c) eqn:E.
    + exact IH.
    + cbn [app ws_normal spaced]. rewrite E. apply collapse_spaced.
Qed.

Lemma spaced_collapse (s : str) :
  (spaced false s = true -> collapse true false s = s)
  /\ (spaced true s = true -> collapse true true s = 0x20 :: s).
Proof.
  induction s as [|c r [IH1 IH2]].
  - split; [reflexivity | discriminate].
  - cbn [spaced collapse]. destruct (isspace c) eqn:E.
    + split; [|discriminate].
      cbn [negb andb]. intros H.
      apply andb_prop in H. destruct H as [Hc Hr].
      apply Z.eqb_eq in Hc. subst c. apply IH2. exact Hr.
    + split; intros H; cbn [app]; rewrite IH1 by exact H; reflexivity.
Qed.

Lemma ws_normal_collapse (s : str) : ws_normal s = true -> collapse_ws s = s.
Proof.
  unfold collapse_ws. destruct s as [|c r]; [reflexivity|].
  cbn [ws_normal spaced collapse]. destruct (isspace c) eqn:E.
  - discriminate.
  - intros H. cbn [app]. f_equal. apply spaced_collapse. exact H.
Qed.

Lemma spaced_last (s : str) (c : Z) :
  forall p, spaced p (s ++ [c]) = true -> isspace c = false.
Proof.
  induction s as [|d r IH]; intros p; cbn [app spaced].
  - destruct (isspace c); [|reflexivity].
    rewrite andb_false_r. discriminate.
  - destruct (isspace d).
    + intros H. apply andb_prop in H. destruct H as [_ H]. exact (IH _ H).
    + apply IH.
Qed.

Lemma ws_normal_strip (s : str) : ws_normal s = true -> str_strip s = s.
Proof.
  intros H. unfold str_strip, rstrip.
  destruct s as [|c r]; [reflexivity|].
  assert (Hl : lstrip (c :: r) = c :: r).
  { cbn [ws_normal spaced] in H. cbn [lstrip].
    destruct (isspace c); [discriminate | reflexivity]. }
  rewrite Hl.
  destruct (exists_last (l := c :: r)) as [s' [z Hz]]; [discriminate|].
  rewrite Hz in *. cbn [ws_normal] in H.
  assert (Hs : spaced true (s' ++ [z]) = true).
  { destruct (s' ++ [z]) eqn:E; [destruct s'; discriminate | exact H]. }
  apply spaced_last in Hs.
  rewrite rev_app_distr. cbn [rev app lstrip]. rewrite Hs.
  change (z :: rev s') with ([z] ++ rev s').
  rewrite rev_app_distr, rev_involutive. reflexivity.
Qed.

Lemma lstrip_spec (s : str) :
  exists pre, s = pre ++ lstrip s /\ forallb isspace pre = true.
Proof.
  induction s as [|c r [pre [Hs Hp]]].
  - exists []. split; reflexivity.
  - cbn [lstrip]. destruct (isspace c) eqn:E.
    + exists (c :: pre). cbn [app forallb]. rewrite E, Hp, <- Hs. split; reflexivity.
    + exists []. split; reflexivity.
Qed.

Lemma lstrip_idem (s : str) : lstrip (lstrip s) = lstrip s.
Proof.
  induction s as [|c r IH]; [reflexivity|].
  cbn [lstrip]. destruct (isspace c) eqn:E; [exact IH|].
  cbn [lstrip]. rewrite E. reflexivity.
Qed.

Lemma lstrip_keeps_last (l : str) (c : Z) :
  isspace c = false -> exists u, lstrip (l ++ [c]) = u ++ [c].
Proof.
  intros Hc. induction l as [|d r [u Hu]]; cbn [app lstrip].
  - rewrite Hc. exists []. reflexivity.
  - destruct (isspace d).
    + exists u. exact Hu.
    + exists (d :: r). reflexivity.
Qed.

Lemma rstrip_idem (s : str) : rstrip (rstrip s) = rstrip s.
Proof. unfold rstrip. rewrite rev_involutive, lstrip_idem. reflexivity. Qed.

Lemma lstrip_rstrip (s : str) : lstrip s = s -> lstrip (rstrip s) = rstrip s.
Proof.
  destruct s as [|c r]; [reflexivity|].
  cbn [lstrip]. destruct (isspace c) eqn:E.
  - intros H. pose proof (lstrip_spec r) as [pre [Hr _]].
    rewrite H in Hr. apply (f_equal (@List.length Z)) in Hr.
    rewrite length_app in Hr. cbn [List.length] in Hr. lia.
  - intros _. unfold rstrip. cbn [rev].
    destruct (lstrip_keeps_last (rev r) c E) as [u Hu].
    rewrite Hu, rev_app_distr. cbn [rev app lstrip]. rewrite E. reflexivity.
Qed.

(** [strip] removes a run of whitespace at either end, and what is left
    neither starts nor ends with whitespace. *)
Lemma str_strip_spec (s : str) :
  exists pre post,
    s = pre ++ str_strip s ++ post
    /\ forallb isspace pre = true /\ forallb isspace post = true
    /\ lstrip (str_strip s) = str_strip s
    /\ rstrip (str_strip s) = str_strip s.
Proof.
  destruct (lstrip_spec s) as [pre [Hs Hpre]].
  destruct (lstrip_spec (rev (lstrip s))) as [q [Hq Hpost]].
  exists pre, (rev q). unfold str_strip. repeat split.
  - rewrite Hs at 1. f_equal. unfold rstrip.
    rewrite <- rev_app_distr, <- Hq, rev_involutive. reflexivity.
  - exact Hpre.
  - rewrite forallb_forall in *. intros x Hx. apply Hpost, in_rev. exact Hx.
  - apply lstrip_rstrip, lstrip_idem.
  - apply rstrip_idem.
Qed.

Lemma lstrip_Forall (P : Z -> Prop) (s : str) :
  Forall P s -> Forall P (lstrip s).
Proof.
  induction 1 as [|c r Hc Hr IH]; cbn [lstrip].
  - constructor.
  - destruct (isspace c); [exact IH | constructor; assumption].
Qed.

Lemma collapse_Forall (P : Z -> Prop) (s : str) :
  P 0x20 -> Forall P s -> forall e g, Forall P (collapse e g s).
Proof.
  intros Hsp. induction 1 as [|c r Hc Hr IH]; intros e g; cbn [collapse].
  - constructor.
  - destruct (isspace c); [apply IH|].
    apply Forall_app. split.
    + destruct g; constructor; [exact Hsp | constructor].
    + constructor; [exact Hc | apply IH].
Qed.

(** ** ASCII strings *)

Lemma ascii_lower_lower_ascii (c : Z) :
  is_ascii c = true -> lower_ascii (ascii_lower c).
Proof.
  unfold lower_ascii, is_ascii, ascii_lower. intros H.
  destruct (Z.leb_spec 0x41 c); destruct (Z.leb_spec c 0x5A); cbn [andb].
  - split; [lia|].
    destruct (Z.leb_spec 0x41 (c + 32)); destruct (Z.leb_spec (c + 32) 0x5A);
      cbn [andb]; lia.
  - split; [exact H|].
    destruct (Z.leb_spec 0x41 c); destruct (Z.leb_spec c 0x5A); cbn [andb]; lia.
  - split; [exact H|].
    destruct (Z.leb_spec 0x41 c); destruct (Z.leb_spec c 0x5A); cbn [andb]; lia.
  - split; [exact H|].
    destruct (Z.leb_spec 0x41 c); destruct (Z.leb_spec c 0x5A); cbn [andb]; lia.
Qed.

Lemma lower_ascii_map (s : str) :
  Forall lower_ascii s -> map ascii_lower s = s.
Proof.
  induction 1 as [|c r [_ Hc] _ IH]; cbn [map].
  - reflexivity.
  - rewrite Hc, IH. reflexivity.
Qed.

(** ** UTF-8 *)

Lemma utf8_char_ok (c : Z) : scalar_value c -> exists b, utf8_char c = Ok b.
Proof.
  unfold scalar_value, utf8_char. intros H.
  destruct (Z.ltb_spec c 0); [lia|].
  destruct (Z.ltb_spec 0x10FFFF c); [lia|]. cbn [orb].
  destruct (c <? 0x80); [eexists; reflexivity|].
  destruct (c <? 0x800); [eexists; reflexivity|].
  destruct (Z.leb_spec 0xD800 c); destruct (Z.leb_spec c 0xDFFF); try lia;
    cbn [andb]; destruct (c <? 0x10000); eexists; reflexivity.
Qed.

Lemma str_encode_ok (s : str) :
  Forall scalar_value s -> exists b, str_encode s = Ok b.
Proof.
  induction 1 as [|c r Hc _ [bs Hbs]].
  - exists []. reflexivity.
  - destruct (utf8_char_ok c Hc) as [b Hb].
    exists (b ++ bs). cbn [str_encode]. rewrite Hb, Hbs. reflexivity.
Qed.

Lemma is_scalar_spec (s : str) :
  forallb is_scalar s = true -> Forall scalar_value s.
Proof.
  intros H. apply Forall_forall. intros c Hc.
  rewrite forallb_forall in H. specialize (H c Hc).
  unfold is_scalar in H. unfold scalar_value. lia.
Qed.

(** ** The checksum loop *)

Lemma digit36_succ (num : Z) (i : nat) :
  digit36 num (S i) = digit36 (num / 36) i.
Proof.
  unfold digit36. do 3 f_equal.
  rewrite Nat2Z.inj_succ, Z.pow_succ_r by lia.
  rewrite Z.div_div by lia. reflexivity.
Qed.

Lemma checksum_loop_spec (k : nat) :
  forall num out,
    checksum_loop k num out = map (digit36 num) (rev (seq 0 k)) ++ out.
Proof.
  induction k as [|k IH]; intros num out.
  - reflexivity.
  - cbn [checksum_loop]. rewrite IH.
    rewrite <- cons_seq, <- seq_shift. cbn [rev].
    rewrite map_app, <- map_rev, map_map, <- app_assoc. cbn [map app].
    f_equal.
    + apply map_ext. intros i. symmetry. apply digit36_succ.
    + unfold digit36. cbn [Z.of_nat Z.pow]. rewrite Z.div_1_r. reflexivity.
Qed.

Lemma chars_base36 (j : nat) : (j < 36)%nat -> base36_char (nth j chars 0).
Proof.
  intros H. unfold base36_char.
  do 36 (destruct j as [|j]; [vm_compute; intuition discriminate|]).
  lia.
Qed.

Lemma digit36_base36 (num : Z) (i : nat) : base36_char (digit36 num i).
Proof.
  unfold digit36. apply chars_base36.
  pose proof (Z.mod_pos_bound (num / 36 ^ Z.of_nat i) 36). lia.
Qed.

(** ** Inversion of the sequencing of fallible steps *)

Lemma bind_ok {A B : Type} (m : outcome A) (k : A -> outcome B) (r : B) :
  bind m k = Ok r -> exists a, m = Ok a /\ k a = Ok r.
Proof.
  destruct m as [a|e|]; cbn [bind]; intros H; try discriminate.
  exists a. split; [reflexivity | exact H].
Qed.

(** ** Looking the words up *)

Lemma list_getitem_ok {A : Type} (l : list A) (d : A) (i : Z) :
  0 <= i < Z.of_nat (List.length l) ->
  list_getitem l i = Ok (nth (Z.to_nat i) l d).
Proof.
  intros Hi. unfold list_getitem.
  destruct (Z.ltb_spec i 0); [lia|].
  destruct (Z.ltb_spec i 0); [lia|].
  destruct (nth_error l (Z.to_nat i)) as [x|] eqn:E.
  - rewrite (nth_error_nth _ _ d E). reflexivity.
  - apply nth_error_None in E. lia.
Qed.

Lemma comprehension_getitem (wordlist : list str) (idxs : list Z) :
  Forall (fun i => 0 <= i < Z.of_nat (List.length wordlist)) idxs ->
  comprehension (list_getitem wordlist) idxs
  = Ok (map (fun i => nth (Z.to_nat i) wordlist []) idxs).
Proof.
  induction 1 as [|i r Hi _ IH].
  - reflexivity.
  - cbn [comprehension map].
    rewrite (list_getitem_ok wordlist [] i Hi), IH. reflexivity.
Qed.


(** Whatever [_bytes_to_indices] returns is the stream of section 4.3. *)
Lemma bytes_to_indices_inv (seed : bytes) (m count : Z) (idxs : list Z) :
  1 <= count -> _bytes_to_indices seed m count = Ok idxs ->
  m <> 0 /\ count <= capacity seed + 8 * 65535 /\ idxs = expand_spec seed m count.
Proof.
  intros Hc H.
  destruct (Z.eq_dec m 0) as [->|Hm].
  { rewrite bytes_to_indices_zero_modulus in H by exact Hc. discriminate. }
  destruct (Z_le_gt_dec count (capacity seed + 8 * 65535)) as [Hle|Hgt].
  - rewrite bytes_to_indices_ok in H by (assumption || lia).
    injection H as <-. repeat split; assumption.
  - rewrite bytes_to_indices_overflow in H by (assumption || lia). discriminate.
Qed.

Lemma str_encode_no_timeout (s : str) : str_encode s <> Timeout.
Proof.
  induction s as [|c r IH]; cbn [str_encode]; [discriminate|].
  assert (Hc : utf8_char c <> Timeout).
  { unfold utf8_char.
    repeat (match goal with |- context [if ?b then _ else _] => destruct b end);
      discriminate. }
  destruct (utf8_char c) as [b| |]; [|discriminate|contradiction].
  cbn [bind]. destruct (str_encode r) as [bs| |];
    [discriminate|discriminate|contradiction].
Qed.

Lemma comprehension_getitem_no_timeout (wordlist : list str) (idxs : list Z) :
  comprehension (list_getitem wordlist) idxs <> Timeout.
Proof.
  induction idxs as [|i r IH]; cbn [comprehension]; [discriminate|].
  assert (Hi : list_getitem wordlist i <> Timeout).
  { unfold list_getitem.
    repeat (match goal with
            | |- context [if ?b then _ else _] => destruct b
            | |- context [match ?o with Some _ => _ | None => _ end] => destruct o
            end); discriminate. }
  destruct (list_getitem wordlist i) as [w| |]; [|discriminate|contradiction].
  cbn [bind]. destruct (comprehension (list_getitem wordlist) r) as [ws| |];
    [discriminate|discriminate|contradiction].
Qed.

(** ** The assembler *)

Section Assembler.

Context {U : UnicodeData}.

(** The identifier, written out, when every step succeeds. *)
Lemma friendly_id_ok (user_input secret_salt : str) (wordlist : list str)
  (n_words checksum_len : Z) (sep : str) (key m : bytes) :
  2 <= n_words -> n_words <= 8 + 8 * 65535 -> wordlist <> [] ->
  str_encode secret_salt = Ok key ->
  str_encode (_normalize user_input) = Ok m ->
  friendly_id user_input secret_salt wordlist n_words checksum_len sep
  = let digest := HMAC.hmac_sha256 key m in
    let words := map (fun i => nth (Z.to_nat i) wordlist [])
                     (expand_spec digest (Z.of_nat (List.length wordlist)) n_words) in
    Ok (str_join sep (if checksum_len >? 0
                      then words ++ [_checksum_base36 digest checksum_len]
                      else words)).
Proof.
  intros Hn Hmax Hwl Hkey Hm. unfold friendly_id.
  destruct (Z.ltb_spec n_words 2); [lia|].
  rewrite Hkey. cbn [bind]. unfold _hmac_sha256. rewrite Hm. cbn [bind].
  assert (Hlen : Z.of_nat (List.length wordlist) <> 0)
    by (destruct wordlist; [contradiction | cbn [List.length]; lia]).
  rewrite bytes_to_indices_ok;
    [| exact Hlen | lia
     | unfold HMAC.hmac_sha256; rewrite capacity_sha256; exact Hmax].
  cbn [bind]. rewrite comprehension_getitem by (apply expand_spec_range; lia).
  reflexivity.
Qed.

(** An identifier is only returned when every step succeeded. *)
Lemma friendly_id_inv (user_input secret_salt : str) (wordlist : list str)
  (n_words checksum_len : Z) (sep r : str) :
  friendly_id user_input secret_salt wordlist n_words checksum_len sep = Ok r ->
  exists key m,
    2 <= n_words /\ n_words <= 8 + 8 * 65535 /\ wordlist <> [] /\
    str_encode secret_salt = Ok key /\
    str_encode (_normalize user_input) = Ok m.
Proof.
  unfold friendly_id. destruct (Z.ltb_spec n_words 2) as [Hlt|Hge]; [discriminate|].
  intros H.
  apply bind_ok in H. destruct H as [key [Hkey H]].
  apply bind_ok in H. destruct H as [digest [Hd H]].
  apply bind_ok in H. destruct H as [idxs [Hi _]].
  unfold _hmac_sha256 in Hd.
  apply bind_ok in Hd. destruct Hd as [m [Hm Hd]]. injection Hd as <-.
  apply bytes_to_indices_inv in Hi; [|lia]. destruct Hi as [Hv [Hcap _]].
  unfold HMAC.hmac_sha256 in Hcap. rewrite capacity_sha256 in Hcap.
  exists key, m. repeat split; try assumption.
  intros ->. apply Hv. reflexivity.
Qed.

(** The iteration budget never shows in the outcome of [friendly_id]. *)
Lemma friendly_id_no_timeout (user_input secret_salt : str)
  (wordlist : list str) (n_words checksum_len : Z) (sep : str) :
  friendly_id user_input secret_salt wordlist n_words checksum_len sep <> Timeout.
Proof.
  unfold friendly_id. destruct (n_words <? 2); [discriminate|].
  pose proof (str_encode_no_timeout secret_salt) as Hs.
  destruct (str_encode secret_salt) as [key| |]; [|discriminate|contradiction].
  cbn [bind]. unfold _hmac_sha256.
  pose proof (str_encode_no_timeout (_normalize user_input)) as Hi.
  destruct (str_encode (_normalize user_input)) as [m| |];
    [|discriminate|contradiction].
  cbn [bind].
  pose proof (bytes_to_indices_no_timeout (HMAC.hmac_sha256 key m)
                (Z.of_nat (List.length wordlist)) n_words) as Hb.
  destruct (_bytes_to_indices (HMAC.hmac_sha256 key m)
              (Z.of_nat (List.length wordlist)) n_words) as [idxs| |];
    [|discriminate|contradiction].
  cbn [bind].
  pose proof (comprehension_getitem_no_timeout wordlist idxs) as Hc.
  destruct (comprehension (list_getitem wordlist) idxs) as [words| |];
    [discriminate|discriminate|contradiction].
Qed.

End Assembler.

(** * The claims of the specification *)

(** ** The index stream expander *)

(** C1 (as amended).  For every seed, every modulus >= 1 and every count >= 1
    that needs at most 65535 extensions, that is
    count <= floor(len(seed) / 4) + 8 * 65535, [_bytes_to_indices] returns
    the first count values of the stream of section 4.3: the complete
    4-byte chunks of the pool, each read as a big-endian unsigned integer
    and reduced modulo the modulus, the pool being replaced, when it is
    used up, by the SHA-256 hash of the current pool followed by a 2-byte
    big-endian counter that starts at 1 and grows by 1 at each extension;
    exactly count values, in production order. *)
Theorem bytes_to_indices_expand (seed : bytes) (modulus count : Z) :
  1 <= modulus -> 1 <= count -> count <= capacity seed + 8 * 65535 ->
  _bytes_to_indices seed modulus count = Ok (expand_spec seed modulus count)
  /\ List.length (expand_spec seed modulus count) = Z.to_nat count.
Proof.
  intros Hm Hc Hcap. split.
  - apply bytes_to_indices_ok; lia.
  - apply expand_spec_length.
Qed.

Lemma bytes_to_indices_expand_witness :
  _bytes_to_indices (blit "abcde") 512 20 = Ok (expand_spec (blit "abcde") 512 20)
  /\ List.length (expand_spec (blit "abcde") 512 20) = Z.to_nat 20.
Proof.
  apply bytes_to_indices_expand; [lia | lia | vm_compute; discriminate].
Defined.

(** C1 as stated fails: with a 32-byte seed, modulus 512 and count 524289
    the 65536th extension is needed, the counter no longer fits in 2 bytes
    and [to_bytes] raises [OverflowError]; no output is produced. *)
Lemma bytes_to_indices_counter_exhausted :
  1 <= 512 /\ 1 <= 524289 /\
  _bytes_to_indices (blit "0123456789abcdef0123456789abcdef") 512 524289
  = Raise OverflowError /\
  _bytes_to_indices (blit "0123456789abcdef0123456789abcdef") 512 524289
  <> Ok (expand_spec (blit "0123456789abcdef0123456789abcdef") 512 524289).
Proof.
  assert (H : _bytes_to_indices (blit "0123456789abcdef0123456789abcdef") 512 524289
              = Raise OverflowError).
  { apply bytes_to_indices_overflow; [lia|].
    change (capacity (blit "0123456789abcdef0123456789abcdef")) with 8. lia. }
  split; [lia|]. split; [lia|]. split.
  - exact H.
  - rewrite H. discriminate.
Qed.

(** C6.  For every seed, every modulus >= 1 and every count >= 1, the
    indices [_bytes_to_indices] returns are count in number and each lies
    in [0, modulus); and it does return them, also on the re-hash path
    (count > 8), as long as the 2-byte counter covers the extensions. *)
Theorem bytes_to_indices_range (seed : bytes) (modulus count : Z) :
  1 <= modulus -> 1 <= count ->
  (forall idxs, _bytes_to_indices seed modulus count = Ok idxs ->
     List.length idxs = Z.to_nat count /\
     Forall (fun i => 0 <= i < modulus) idxs)
  /\ (count <= capacity seed + 8 * 65535 ->
      exists idxs, _bytes_to_indices seed modulus count = Ok idxs /\
        List.length idxs = Z.to_nat count /\
        Forall (fun i => 0 <= i < modulus) idxs).
Proof.
  intros Hm Hc. split.
  - intros idxs H. apply bytes_to_indices_inv in H; [|exact Hc].
    destruct H as [_ [_ ->]]. split.
    + apply expand_spec_length.
    + apply expand_spec_range. lia.
  - intros Hcap. exists (expand_spec seed modulus count). repeat split.
    + apply bytes_to_indices_ok; lia.
    + apply expand_spec_length.
    + apply expand_spec_range. lia.
Qed.

Lemma bytes_to_indices_range_witness :
  (forall idxs,
     _bytes_to_indices (SHA256.sha256 (blit "seed")) 7776 20 = Ok idxs ->
     List.length idxs = Z.to_nat 20 /\ Forall (fun i => 0 <= i < 7776) idxs)
  /\ (20 <= capacity (SHA256.sha256 (blit "seed")) + 8 * 65535 ->
      exists idxs,
        _bytes_to_indices (SHA256.sha256 (blit "seed")) 7776 20 = Ok idxs /\
        List.length idxs = Z.to_nat 20 /\ Forall (fun i => 0 <= i < 7776) idxs).
Proof.
  apply bytes_to_indices_range; lia.
Defined.

(** C10.  For every seed (empty, or of a length that is not a multiple of
    4, included), every modulus >= 1 and every count with
    1 <= count <= 65536, [_bytes_to_indices] terminates and returns exactly
    count indices; every re-hashed pool has 32 bytes, hence 8 complete
    chunks, and a pass over such a pool strictly decreases the number of
    values still needed. *)
Theorem bytes_to_indices_terminates (seed : bytes) (modulus count : Z) :
  1 <= modulus -> 1 <= count <= 65536 ->
  (exists idxs, _bytes_to_indices seed modulus count = Ok idxs /\
                List.length idxs = Z.to_nat count)
  /\ (forall x, List.length (SHA256.sha256 x) = 32%nat /\
                List.length (chunks4 (SHA256.sha256 x)) = 8%nat)
  /\ (forall x needed out, 1 <= needed ->
        exists needed' out',
          scan_pool modulus (SHA256.sha256 x) needed out = Ok (needed', out') /\
          0 <= needed' < needed).
Proof.
  intros Hm Hc. split; [|split].
  - exists (expand_spec seed modulus count). split.
    + apply bytes_to_indices_ok; try lia.
      pose proof (capacity_nonneg seed). lia.
    + apply expand_spec_length.
  - intros x. split; [apply sha256_length|].
    pose proof (chunks4_length (SHA256.sha256 x)) as H.
    rewrite capacity_sha256 in H. lia.
  - intros x needed out Hn.
    pose proof (chunks4_length (SHA256.sha256 x)) as H.
    rewrite capacity_sha256 in H.
    rewrite scan_pool_spec by lia.
    eexists _, _. split; [reflexivity|]. lia.
Qed.

Lemma bytes_to_indices_terminates_witness :
  exists idxs, _bytes_to_indices [] 512 65536 = Ok idxs /\
               List.length idxs = Z.to_nat 65536.
Proof.
  apply (bytes_to_indices_terminates [] 512 65536); lia.
Defined.

(** ** The checksum generator *)

(** C7.  For every byte string and every length >= 1, [_checksum_base36]
    returns the [length] low-order base-36 digits of the SHA-256 hash read
    as a big-endian unsigned integer, most significant first, each taken
    from the alphabet 0-9A-Z by remainder and quotient by 36; the result
    has exactly [length] characters, all of them in 0-9A-Z. *)
Theorem checksum_base36_digits (b : bytes) (length : Z) :
  1 <= length ->
  _checksum_base36 b length = checksum_spec b length
  /\ List.length (_checksum_base36 b length) = Z.to_nat length
  /\ Forall base36_char (_checksum_base36 b length).
Proof.
  intros Hl. unfold _checksum_base36, checksum_spec.
  rewrite checksum_loop_spec, app_nil_r. split; [reflexivity|]. split.
  - rewrite length_map, length_rev, length_seq. reflexivity.
  - apply Forall_forall. intros c Hc.
    apply in_map_iff in Hc. destruct Hc as [i [<- _]].
    apply digit36_base36.
Qed.

Lemma checksum_base36_digits_witness :
  _checksum_base36 (blit "abc") 5 = checksum_spec (blit "abc") 5
  /\ List.length (_checksum_base36 (blit "abc") 5) = Z.to_nat 5
  /\ Forall base36_char (_checksum_base36 (blit "abc") 5).
Proof.
  apply checksum_base36_digits. lia.
Defined.

Example checksum_sample : _checksum_base36 (blit "abc") 5 = lit "5AS31".
Proof. vm_compute. reflexivity. Qed.

(** ** The keyed digest *)

(** C9.  For every key and every message whose normal form is made of
    Unicode scalar values, [_hmac_sha256] returns HMAC-SHA256 of the key and
    of the UTF-8 encoding of the normalized message, which has exactly 32
    bytes.  The result is a function of the key and the message alone. *)
Theorem hmac_sha256_digest {U : UnicodeData} (key : bytes) (msg : str) :
  Forall scalar_value (_normalize msg) ->
  exists m,
    str_encode (_normalize msg) = Ok m
    /\ _hmac_sha256 key msg = Ok (HMAC.hmac_sha256 key m)
    /\ List.length (HMAC.hmac_sha256 key m) = 32%nat.
Proof.
  intros Hs. destruct (str_encode_ok _ Hs) as [m Hm].
  exists m. split; [exact Hm|]. split.
  - unfold _hmac_sha256. rewrite Hm. reflexivity.
  - apply hmac_sha256_length.
Qed.

Lemma hmac_sha256_digest_witness :
  exists m,
    str_encode (_normalize (U := UCD.excerpt) (lit " User@Example.com ")) = Ok m
    /\ _hmac_sha256 (U := UCD.excerpt) (blit "test-salt") (lit " User@Example.com ")
       = Ok (HMAC.hmac_sha256 (blit "test-salt") m)
    /\ List.length (HMAC.hmac_sha256 (blit "test-salt") m) = 32%nat.
Proof.
  apply (hmac_sha256_digest (U := UCD.excerpt)).
  apply is_scalar_spec. vm_compute. reflexivity.
Defined.

Example hmac_sha256_sample :
  _hmac_sha256 (U := UCD.excerpt) (blit "test-salt") (lit " User@Example.com ")
  = Ok (HMAC.hmac_sha256 (blit "test-salt") (blit "user@example.com")).
Proof. vm_compute. reflexivity. Qed.

Example hmac_sha256_surrogate :
  _hmac_sha256 (U := UCD.excerpt) (blit "test-salt") [0x61; 0xDC00]
  = Raise UnicodeEncodeError.
Proof. reflexivity. Qed.

(** ** The identifier assembler *)

Example friendly_id_sample :
  friendly_id (U := UCD.excerpt) (lit "user@example.com") (lit "test-salt")
              wordlist512 3 2 (lit "-")
  = Ok (lit "akx-afb-afx-J3").
Proof. vm_compute. reflexivity. Qed.

(** C8.  With checksum length 0 the checksum is the empty string, and an
    identifier that is returned is exactly the word_count words, all taken
    from the wordlist, joined by the separator: no checksum token, no
    separator after the last word. *)
Theorem friendly_id_no_checksum {U : UnicodeData}
  (user_input secret_salt : str) (wordlist : list str) (n_words : Z)
  (sep r : str) :
  friendly_id user_input secret_salt wordlist n_words 0 sep = Ok r ->
  (forall b, _checksum_base36 b 0 = [])
  /\ exists words,
       List.length words = Z.to_nat n_words
       /\ Forall (fun w => In w wordlist) words
       /\ r = str_join sep words.
Proof.
  intros H. split; [reflexivity|].
  destruct (friendly_id_inv _ _ _ _ _ _ _ H)
    as [key [m [Hn [Hmax [Hwl [Hkey Hm]]]]]].
  rewrite (friendly_id_ok _ _ _ _ _ _ key m Hn Hmax Hwl Hkey Hm) in H.
  cbv zeta in H. change (0 >? 0) with false in H. cbv iota in H.
  injection H as <-.
  eexists. split; [|split; [|reflexivity]].
  - rewrite length_map. apply expand_spec_length.
  - apply Forall_forall. intros w Hw.
    apply in_map_iff in Hw. destruct Hw as [i [<- Hi]].
    assert (Hr : 0 <= i < Z.of_nat (List.length wordlist)).
    { pose proof (expand_spec_range (HMAC.hmac_sha256 key m)
                    (Z.of_nat (List.length wordlist)) n_words) as Hall.
      rewrite Forall_forall in Hall. apply Hall; [|exact Hi].
      destruct wordlist; [contradiction | cbn [List.length]; lia]. }
    apply nth_In. lia.
Qed.

Lemma friendly_id_no_checksum_witness :
  (forall b, _checksum_base36 b 0 = [])
  /\ exists words,
       List.length words = Z.to_nat 3
       /\ Forall (fun w => In w wordlist512) words
       /\ lit "akx-afb-afx" = str_join (lit "-") words.
Proof.
  apply (friendly_id_no_checksum (U := UCD.excerpt)
           (lit "user@example.com") (lit "test-salt")).
  vm_compute. reflexivity.
Defined.

(** C5 (as amended).  A word count below 2 makes [friendly_id] raise
    [ValueError] (the InvalidParameter error) before the salt or the input
    is encoded or anything is hashed, so whatever the other arguments are
    and with no output; word count 1 raises, and word count 2 succeeds on a
    non-empty wordlist when the salt and the normalized input are made of
    Unicode scalar values.  A negative checksum length is not rejected: the
    call behaves as with checksum length 0. *)
Theorem friendly_id_validation {U : UnicodeData}
  (user_input secret_salt : str) (wordlist : list str)
  (n_words checksum_len : Z) (sep : str) :
  (n_words < 2 ->
   friendly_id user_input secret_salt wordlist n_words checksum_len sep
   = Raise ValueError)
  /\ (n_words = 2 -> wordlist <> [] ->
      Forall scalar_value secret_salt ->
      Forall scalar_value (_normalize user_input) ->
      exists r,
        friendly_id user_input secret_salt wordlist n_words checksum_len sep = Ok r)
  /\ (checksum_len < 0 ->
      friendly_id user_input secret_salt wordlist n_words checksum_len sep
      = friendly_id user_input secret_salt wordlist n_words 0 sep).
Proof.
  split; [|split].
  - intros Hn. unfold friendly_id.
    destruct (Z.ltb_spec n_words 2) as [_|Hge]; [reflexivity | lia].
  - intros -> Hwl Hsalt Hin.
    destruct (str_encode_ok _ Hsalt) as [key Hkey].
    destruct (str_encode_ok _ Hin) as [m Hm].
    rewrite (friendly_id_ok _ _ _ _ _ _ key m); try assumption; try lia.
    eexists. reflexivity.
  - intros Hneg. unfold friendly_id.
    destruct (n_words <? 2); [reflexivity|].
    destruct (str_encode secret_salt) as [key| |]; [|reflexivity..].
    cbn [bind].
    destruct (_hmac_sha256 key user_input) as [digest| |]; [|reflexivity..].
    cbn [bind].
    destruct (_bytes_to_indices digest (Z.of_nat (List.length wordlist)) n_words)
      as [idxs| |]; [|reflexivity..].
    cbn [bind].
    destruct (comprehension (list_getitem wordlist) idxs) as [words| |];
      [|reflexivity..].
    cbn [bind].
    destruct (Z.gtb_spec checksum_len 0) as [Hpos|_]; [lia|].
    reflexivity.
Qed.

Lemma friendly_id_validation_witness :
  friendly_id (U := UCD.excerpt) (lit "user@example.com") [0xD800] [] 1 (-1) (lit "-")
  = Raise ValueError
  /\ (exists r,
        friendly_id (U := UCD.excerpt) (lit "user@example.com") (lit "test-salt")
                    wordlist512 2 2 (lit "-") = Ok r)
  /\ friendly_id (U := UCD.excerpt) (lit "user@example.com") (lit "test-salt")
                 wordlist512 2 (-1) (lit "-")
     = friendly_id (U := UCD.excerpt) (lit "user@example.com") (lit "test-salt")
                   wordlist512 2 0 (lit "-").
Proof.
  split; [|split].
  - apply (friendly_id_validation (U := UCD.excerpt)). lia.
  - apply (friendly_id_validation (U := UCD.excerpt)
             (lit "user@example.com") (lit "test-salt") wordlist512 2 2 (lit "-")).
    + reflexivity.
    + discriminate.
    + apply is_scalar_spec. vm_compute. reflexivity.
    + apply is_scalar_spec. vm_compute. reflexivity.
  - apply (friendly_id_validation (U := UCD.excerpt)). lia.
Defined.

(** C5 as stated fails: with checksum length -1 no error is raised; the
    call returns the identifier without a checksum token. *)
Lemma friendly_id_negative_checksum_accepted :
  -1 < 0 /\
  friendly_id (U := UCD.excerpt) (lit "user@example.com") (lit "test-salt")
              wordlist512 2 (-1) (lit "-")
  = Ok (lit "akx-afb").
Proof.
  split; [lia|]. vm_compute. reflexivity.
Qed.

(** ** The normalizer *)

Section Normalizer.

Context {U : UnicodeData}.

Lemma normalize_collapse (s : str) :
  _normalize s = collapse_ws (nfkc (str_lower (str_strip s))).
Proof. unfold _normalize. apply join_split_collapse. Qed.

Lemma normalize_ws_normal (s : str) : ws_normal (_normalize s) = true.
Proof. rewrite normalize_collapse. apply collapse_ws_normal. Qed.

(** The facts of the Unicode database that break idempotence: U+2102
    has no lowercase mapping and its compatibility decomposition is the
    capital letter C. *)
Lemma normalize_twice_double_struck_c :
  str_lower [0x2102] = [0x2102] -> nfkc [0x2102] = [0x43] ->
  str_lower [0x43] = [0x63] -> nfkc [0x63] = [0x63] ->
  _normalize [0x2102] = [0x43] /\ _normalize (_normalize [0x2102]) = [0x63].
Proof.
  intros L1 N1 L2 N2.
  assert (H1 : _normalize [0x2102] = [0x43]).
  { unfold _normalize. change (str_strip [0x2102]) with [0x2102].
    rewrite L1, N1. reflexivity. }
  split; [exact H1|]. rewrite H1.
  unfold _normalize. change (str_strip [0x43]) with [0x43].
  rewrite L2, N2. reflexivity.
Qed.

(** The facts of the Unicode database that tell lowercasing from case
    folding: U+00DF is its own lowercase and folds to "ss". *)
Lemma normalize_sharp_s :
  str_lower [0xDF] = [0xDF] -> str_casefold [0xDF] = [0x73; 0x73] ->
  nfkc [0xDF] = [0xDF] -> nfkc [0x73; 0x73] = [0x73; 0x73] ->
  _normalize [0xDF] = [0xDF] /\ normalize_spec [0xDF] = [0x73; 0x73].
Proof.
  intros L F N1 N2. unfold normalize_spec. rewrite normalize_collapse.
  change (str_strip [0xDF]) with [0xDF].
  rewrite L, F, N1, N2. split; reflexivity.
Qed.

(** A normal form that lowercasing and NFKC leave alone is normalized
    to itself. *)
Lemma normalize_stable (s : str) :
  str_lower (_normalize s) = _normalize s ->
  nfkc (_normalize s) = _normalize s ->
  _normalize (_normalize s) = _normalize s.
Proof.
  intros Hl Hn.
  pose proof (normalize_ws_normal s) as Hw.
  rewrite (normalize_collapse (_normalize s)).
  rewrite (ws_normal_strip _ Hw), Hl, Hn.
  apply ws_normal_collapse. exact Hw.
Qed.

(** In particular [_normalize] is idempotent on ASCII strings. *)
Lemma normalize_idempotent_ascii (s : str) :
  ascii_exact U -> Forall (fun c => is_ascii c = true) s ->
  _normalize (_normalize s) = _normalize s.
Proof.
  intros HU Hs.
  assert (Hstrip : Forall (fun c => is_ascii c = true) (str_strip s)).
  { unfold str_strip, rstrip. apply Forall_rev, lstrip_Forall, Forall_rev,
      lstrip_Forall. exact Hs. }
  destruct (HU _ Hstrip) as [Hlow _].
  assert (Hq : Forall lower_ascii (map ascii_lower (str_strip s))).
  { apply Forall_forall. intros x Hx. apply in_map_iff in Hx.
    destruct Hx as [c [<- Hc]]. rewrite Forall_forall in Hstrip.
    apply ascii_lower_lower_ascii, Hstrip, Hc. }
  destruct (HU (map ascii_lower (str_strip s))) as [_ Hnf].
  { eapply Forall_impl; [|exact Hq]. intros c [Hc _]. exact Hc. }
  assert (Ht : Forall lower_ascii (_normalize s)).
  { rewrite normalize_collapse, Hlow, Hnf. apply collapse_Forall.
    - split; reflexivity.
    - exact Hq. }
  destruct (HU (_normalize s)) as [Hl Hn].
  { eapply Forall_impl; [|exact Ht]. intros c [Hc _]. exact Hc. }
  apply normalize_stable; [|exact Hn].
  rewrite Hl. apply lower_ascii_map. exact Ht.
Qed.

End Normalizer.

Lemma excerpt_ascii_exact : ascii_exact UCD.excerpt.
Proof.
  intros s Hs. induction Hs as [|c r Hc _ [IHl IHn]].
  - split; reflexivity.
  - cbn [str_lower nfkc UCD.excerpt flat_map map] in *.
    rewrite IHl, IHn. unfold is_ascii in Hc.
    assert (Hr : 0 <= c < 0x80) by lia.
    split; f_equal.
    + unfold UCD.lower_cp, ascii_lower.
      destruct ((0x41 <=? c) && (c <=? 0x5A)); [reflexivity|].
      destruct (Z.leb_spec 0xC0 c); [lia|]. reflexivity.
    + unfold UCD.nfkc_cp.
      repeat (match goal with
              | |- context [?x =? ?y] => destruct (Z.eqb_spec x y); [lia|]
              end).
      reflexivity.
Qed.

(** C3 (as amended).  For every string, [_normalize] strips leading and
    trailing whitespace, lowercases with [str.lower] (the Unicode lowercase
    mapping, which is not case folding), applies NFKC, and collapses
    whitespace: every run of whitespace between two tokens becomes a single
    U+0020 and whitespace at either end is dropped, so the result has no
    whitespace but single U+0020 between tokens.  It is a total function,
    the empty string included. *)
Theorem normalize_steps {U : UnicodeData} (s : str) :
  _normalize s = collapse_ws (nfkc (str_lower (str_strip s)))
  /\ (exists pre post,
        s = pre ++ str_strip s ++ post
        /\ forallb isspace pre = true /\ forallb isspace post = true
        /\ lstrip (str_strip s) = str_strip s
        /\ rstrip (str_strip s) = str_strip s)
  /\ ws_normal (_normalize s) = true
  /\ str_strip [] = [] /\ collapse_ws [] = [].
Proof.
  split; [apply normalize_collapse|].
  split; [apply str_strip_spec|].
  split; [apply normalize_ws_normal|].
  split; reflexivity.
Qed.

(** C3 as stated fails: case folding sends U+00DF to "ss", [_normalize]
    keeps it, as [str.lower] does. *)
Lemma normalize_lowercases_not_casefolds :
  _normalize (U := UCD.excerpt) [0xDF] = [0xDF]
  /\ normalize_spec (U := UCD.excerpt) [0xDF] = [0x73; 0x73]
  /\ _normalize (U := UCD.excerpt) [0xDF] <> normalize_spec (U := UCD.excerpt) [0xDF].
Proof.
  split; [reflexivity|]. split; [reflexivity|]. discriminate.
Qed.

Example normalize_not_ascii_lowering :
  _normalize (U := UCD.excerpt) [0x20; 0xC9; 0x54; 0xC9; 0xA0; 0x09; 0x32; 0xB2]
  = [0xE9; 0x74; 0xE9; 0x20; 0x32; 0x32].
Proof. reflexivity. Qed.

(** C4 (as amended).  [_normalize (_normalize s) = _normalize s] for every
    string [s] whose normal form is left unchanged by lowercasing and by
    NFKC. *)
Theorem normalize_idempotent {U : UnicodeData} (s : str) :
  str_lower (_normalize s) = _normalize s ->
  nfkc (_normalize s) = _normalize s ->
  _normalize (_normalize s) = _normalize s.
Proof. apply normalize_stable. Qed.

Lemma normalize_idempotent_witness :
  _normalize (U := UCD.excerpt)
    (_normalize (U := UCD.excerpt) (lit "  Hello   World "))
  = _normalize (U := UCD.excerpt) (lit "  Hello   World ").
Proof.
  apply (normalize_idempotent (U := UCD.excerpt)); reflexivity.
Defined.

(** C4 as stated fails: the normal form of U+2102 is the capital letter C,
    which a second normalization lowercases. *)
Lemma normalize_not_idempotent :
  _normalize (U := UCD.excerpt) [0x2102] = [0x43]
  /\ _normalize (U := UCD.excerpt) (_normalize (U := UCD.excerpt) [0x2102]) = [0x63]
  /\ _normalize (U := UCD.excerpt) (_normalize (U := UCD.excerpt) [0x2102])
     <> _normalize (U := UCD.excerpt) [0x2102].
Proof.
  split; [reflexivity|]. split; [reflexivity|]. discriminate.
Qed.

(** * Further properties of the code *)

(** ** The index stream expander: outcomes, prefixes, direct chunks *)

Lemma expand_spec_prefix (seed : bytes) (m n n' : Z) :
  0 <= n <= n' ->
  expand_spec seed m n = firstn (Z.to_nat n) (expand_spec seed m n').
Proof.
  intros Hn. unfold expand_spec.
  rewrite firstn_firstn. replace (Nat.min (Z.to_nat n) (Z.to_nat n')) with (Z.to_nat n) by lia.
  cbn [next_pools flat_map]. rewrite !firstn_app. f_equal.
  apply stream_stable; [apply capacity_sha256 | lia | lia].
Qed.

Lemma expand_spec_direct (seed : bytes) (m n : Z) :
  n <= capacity seed ->
  expand_spec seed m n = firstn (Z.to_nat n) (pool_values m seed).
Proof.
  intros Hn. unfold expand_spec. cbn [next_pools flat_map].
  rewrite firstn_app. pose proof (pool_values_length m seed) as Hl.
  replace (Z.to_nat n - List.length (pool_values m seed))%nat with 0%nat by lia.
  cbn [firstn]. apply app_nil_r.
Qed.

Lemma nth_pool_values (m : Z) (seed : bytes) :
  forall i, (i < List.length (chunks4 seed))%nat ->
    nth i (pool_values m seed) 0
    = int_from_bytes (firstn 4 (skipn (4 * i) seed)) mod m.
Proof.
  induction seed as [l Hl | a b c d r IH] using chunk_ind; intros i Hi.
  - rewrite chunks4_short in Hi by exact Hl. cbn [List.length] in Hi. lia.
  - destruct i as [|j].
    + reflexivity.
    + cbn [chunks4 List.length] in Hi.
      replace (4 * S j)%nat with (S (S (S (S (4 * j))))) by lia.
      unfold pool_values. cbn [chunks4 map nth skipn].
      apply IH. lia.
Qed.

(** X1.  The outcome of [_bytes_to_indices] in every case: no index is
    asked for (count <= 0), the empty list; modulus 0, [ZeroDivisionError]
    (after one re-hash when the seed has no complete chunk); more values
    than 65535 extensions give, [OverflowError]; otherwise the first count
    values of the stream. *)
Theorem bytes_to_indices_outcome (seed : bytes) (vocab_size n : Z) :
  _bytes_to_indices seed vocab_size n
  = if n <=? 0 then Ok []
    else if vocab_size =? 0 then Raise ZeroDivisionError
    else if n <=? capacity seed + 8 * 65535 then Ok (expand_spec seed vocab_size n)
    else Raise OverflowError.
Proof.
  destruct (Z.leb_spec n 0) as [Hn|Hn].
  { unfold _bytes_to_indices. cbn [while_needed].
    destruct (Z.gtb_spec n 0) as [?|_]; [lia | reflexivity]. }
  destruct (Z.eqb_spec vocab_size 0) as [->|Hm].
  { apply bytes_to_indices_zero_modulus. lia. }
  destruct (Z.leb_spec n (capacity seed + 8 * 65535)) as [Hc|Hc].
  - apply bytes_to_indices_ok; [exact Hm | lia | exact Hc].
  - apply bytes_to_indices_overflow; assumption.
Qed.

(** X2.  Asking for fewer indices gives a prefix: when the call for [n']
    indices returns [idxs], the call for [n <= n'] indices returns the first
    [n] of them. *)
Theorem bytes_to_indices_prefix (seed : bytes) (vocab_size n n' : Z)
  (idxs : list Z) :
  n <= n' ->
  _bytes_to_indices seed vocab_size n' = Ok idxs ->
  _bytes_to_indices seed vocab_size n = Ok (firstn (Z.to_nat n) idxs).
Proof.
  intros Hn H.
  destruct (Z_le_gt_dec n 0) as [H0|H0].
  { replace (Z.to_nat n) with 0%nat by lia. cbn [firstn].
    unfold _bytes_to_indices. cbn [while_needed].
    destruct (Z.gtb_spec n 0) as [?|_]; [lia | reflexivity]. }
  apply bytes_to_indices_inv in H; [|lia]. destruct H as [Hm [Hc ->]].
  rewrite bytes_to_indices_ok by (assumption || lia).
  f_equal. apply expand_spec_prefix. lia.
Qed.

Lemma bytes_to_indices_prefix_witness :
  _bytes_to_indices (blit "abcde") 512 3 = Ok (firstn (Z.to_nat 3) [356; 427; 177; 343; 287]).
Proof.
  apply (bytes_to_indices_prefix (blit "abcde") 512 3 5); [lia|].
  vm_compute. reflexivity.
Defined.

(** X3.  As long as the seed has enough complete chunks no hashing takes
    place: for 1 <= n <= len(seed) // 4 and a modulus other than 0, index
    number [i] is the integer in bytes [4i .. 4i+3] of the seed, big-endian,
    modulo the modulus. *)
Theorem bytes_to_indices_direct (seed : bytes) (vocab_size n : Z) :
  vocab_size <> 0 -> 1 <= n <= capacity seed ->
  exists idxs,
    _bytes_to_indices seed vocab_size n = Ok idxs
    /\ List.length idxs = Z.to_nat n
    /\ forall i, (i < Z.to_nat n)%nat ->
         nth i idxs 0
         = int_from_bytes (firstn 4 (skipn (4 * i) seed)) mod vocab_size.
Proof.
  intros Hm Hn. exists (expand_spec seed vocab_size n). split; [|split].
  - apply bytes_to_indices_ok; [exact Hm | lia | lia].
  - apply expand_spec_length.
  - intros i Hi. rewrite expand_spec_direct by lia.
    rewrite nth_firstn. destruct (Nat.ltb_spec i (Z.to_nat n)) as [_|?]; [|lia].
    apply nth_pool_values. pose proof (chunks4_length seed). lia.
Qed.

Lemma bytes_to_indices_direct_witness :
  exists idxs,
    _bytes_to_indices (blit "0123456789abcdef") 512 4 = Ok idxs
    /\ List.length idxs = Z.to_nat 4
    /\ forall i, (i < Z.to_nat 4)%nat ->
         nth i idxs 0
         = int_from_bytes (firstn 4 (skipn (4 * i) (blit "0123456789abcdef"))) mod 512.
Proof.
  apply bytes_to_indices_direct; [discriminate|]. vm_compute. split; discriminate.
Defined.

(** ** The checksum: tails and value *)

Lemma checksum_base36_map (b : bytes) (length : Z) :
  _checksum_base36 b length
  = map (digit36 (int_from_bytes (SHA256.sha256 b))) (rev (seq 0 (Z.to_nat length))).
Proof.
  unfold _checksum_base36. rewrite checksum_loop_spec. apply app_nil_r.
Qed.

(** X4.  A shorter checksum is the tail of a longer one: for
    [length <= length'], the checksum of [length] characters is the
    checksum of [length'] characters without its first [length' - length]
    characters; for [length <= 0] it is empty. *)
Theorem checksum_base36_tail (b : bytes) (length length' : Z) :
  length <= length' ->
  _checksum_base36 b length
  = skipn (Z.to_nat length' - Z.to_nat length) (_checksum_base36 b length').
Proof.
  intros Hl. rewrite !checksum_base36_map.
  replace (Z.to_nat length')
    with (Z.to_nat length + (Z.to_nat length' - Z.to_nat length))%nat at 2 by lia.
  rewrite seq_app, rev_app_distr, map_app, skipn_app.
  rewrite skipn_all2 by (rewrite length_map, length_rev, length_seq; lia).
  rewrite length_map, length_rev, length_seq, Nat.sub_diag. reflexivity.
Qed.

Lemma checksum_base36_tail_witness :
  _checksum_base36 (blit "abc") 2
  = skipn (Z.to_nat 5 - Z.to_nat 2) (_checksum_base36 (blit "abc") 5).
Proof.
  apply checksum_base36_tail. lia.
Defined.

Lemma horner36 (num : Z) (k : nat) :
  forall acc,
    fold_left (fun a d => a * 36 + d)
              (map (fun i => (num / 36 ^ Z.of_nat i) mod 36) (rev (seq 0 k))) acc
    = acc * 36 ^ Z.of_nat k + num mod 36 ^ Z.of_nat k.
Proof.
  induction k as [|k IH]; intros acc.
  - cbn [seq rev map fold_left Z.of_nat]. rewrite Z.pow_0_r, Z.mod_1_r. lia.
  - rewrite seq_S, rev_app_distr. cbn [rev app map fold_left Nat.add].
    rewrite IH, Nat2Z.inj_succ, Z.pow_succ_r by lia.
    rewrite (Z.mul_comm 36 (36 ^ Z.of_nat k)).
    rewrite (Z.rem_mul_r num (36 ^ Z.of_nat k) 36) by lia.
    lia.
Qed.

Lemma nodup_same (l : list Z) : nodup Z.eq_dec l = l -> NoDup l.
Proof. intros H. rewrite <- H. apply NoDup_nodup. Qed.

(** X5.  The checksum is the base-36 numeral, on [length] digits, of the
    hash modulo 36^length: its characters are [chars[d]] for digits [d] in
    [0, 36) whose value, most significant first, is
    SHA-256(b) mod 36^length; the 36 characters of [chars] are distinct. *)
Theorem checksum_base36_value (b : bytes) (length : Z) :
  0 <= length ->
  NoDup chars
  /\ exists ds,
       _checksum_base36 b length = map (fun d => nth (Z.to_nat d) chars 0) ds
       /\ Forall (fun d => 0 <= d < 36) ds
       /\ fold_left (fun a d => a * 36 + d) ds 0
          = int_from_bytes (SHA256.sha256 b) mod 36 ^ length.
Proof.
  intros Hl. split; [apply nodup_same; vm_compute; reflexivity|].
  set (num := int_from_bytes (SHA256.sha256 b)).
  exists (map (fun i => (num / 36 ^ Z.of_nat i) mod 36) (rev (seq 0 (Z.to_nat length)))).
  split; [|split].
  - rewrite checksum_base36_map, map_map. reflexivity.
  - apply Forall_forall. intros d Hd. apply in_map_iff in Hd.
    destruct Hd as [i [<- _]]. apply Z.mod_pos_bound. lia.
  - rewrite horner36, Z2Nat.id by exact Hl. lia.
Qed.

Lemma checksum_base36_value_witness :
  NoDup chars
  /\ exists ds,
       _checksum_base36 (blit "abc") 5 = map (fun d => nth (Z.to_nat d) chars 0) ds
       /\ Forall (fun d => 0 <= d < 36) ds
       /\ fold_left (fun a d => a * 36 + d) ds 0
          = int_from_bytes (SHA256.sha256 (blit "abc")) mod 36 ^ 5.
Proof.
  apply checksum_base36_value. lia.
Defined.

(** ** The assembler: errors, composition *)

Lemma utf8_char_cases (c : Z) :
  (scalar_value c /\ exists b, utf8_char c = Ok b)
  \/ (~ scalar_value c /\ utf8_char c = Raise UnicodeEncodeError).
Proof.
  unfold scalar_value, utf8_char.
  destruct (Z.ltb_spec c 0); [right; split; [lia | reflexivity]|].
  destruct (Z.ltb_spec 0x10FFFF c); [right; split; [lia | reflexivity]|].
  cbn [orb].
  destruct (Z.ltb_spec c 0x80); [left; split; [lia | eexists; reflexivity]|].
  destruct (Z.ltb_spec c 0x800); [left; split; [lia | eexists; reflexivity]|].
  destruct (Z.leb_spec 0xD800 c); destruct (Z.leb_spec c 0xDFFF); cbn [andb];
    try (right; split; [lia | reflexivity]);
    destruct (c <? 0x10000); left; (split; [lia | eexists; reflexivity]).
Qed.

(** Encoding fails exactly on strings with a code point that is not a
    scalar value, and then with [UnicodeEncodeError]. *)
Lemma str_encode_raise (s : str) :
  ~ Forall scalar_value s -> str_encode s = Raise UnicodeEncodeError.
Proof.
  induction s as [|c r IH]; intros H.
  - exfalso. apply H. constructor.
  - cbn [str_encode].
    destruct (utf8_char_cases c) as [[Hc [b Hb]] | [_ Hb]]; rewrite Hb; cbn [bind].
    + rewrite IH; [reflexivity|].
      intros Hr. apply H. constructor; assumption.
    + reflexivity.
Qed.

Lemma str_encode_cases (s : str) :
  str_encode s = Raise UnicodeEncodeError \/ exists b, str_encode s = Ok b.
Proof.
  induction s as [|c r IH]; cbn [str_encode].
  - right. eexists. reflexivity.
  - destruct (utf8_char_cases c) as [[_ [b Hb]] | [_ Hb]]; rewrite Hb; cbn [bind].
    + destruct IH as [E | [bs E]]; rewrite E; cbn [bind].
      * left. reflexivity.
      * right. eexists. reflexivity.
    + left. reflexivity.
Qed.

Lemma str_join_app (sep : str) (a b : list str) :
  a <> [] -> b <> [] ->
  str_join sep (a ++ b) = str_join sep a ++ sep ++ str_join sep b.
Proof.
  intros Ha Hb. induction a as [|x a IH]; [contradiction|].
  destruct a as [|y a].
  - cbn [app]. rewrite str_join_cons. destruct b; [contradiction | reflexivity].
  - cbn [app]. rewrite (str_join_cons sep x (y :: a ++ b)).
    rewrite (str_join_cons sep x (y :: a)).
    change (y :: a ++ b) with ((y :: a) ++ b). rewrite IH by discriminate.
    rewrite <- !app_assoc. reflexivity.
Qed.

Lemma lstrip_spaces (pre s : str) :
  forallb isspace pre = true -> lstrip (pre ++ s) = lstrip s.
Proof.
  induction pre as [|c r IH]; cbn [forallb app lstrip]; intros H.
  - reflexivity.
  - apply andb_prop in H. destruct H as [Hc Hr]. rewrite Hc. apply IH, Hr.
Qed.

Lemma lstrip_app (s t : str) :
  lstrip (s ++ t) = match lstrip s with [] => lstrip t | _ => lstrip s ++ t end.
Proof.
  induction s as [|c r IH]; cbn [app lstrip].
  - reflexivity.
  - destruct (isspace c); [exact IH | reflexivity].
Qed.

Lemma forallb_rev (f : Z -> bool) (l : str) :
  forallb f l = true -> forallb f (rev l) = true.
Proof.
  rewrite !forallb_forall. intros H x Hx. apply H, in_rev, Hx.
Qed.

Lemma rstrip_spaces (s post : str) :
  forallb isspace post = true -> rstrip (s ++ post) = rstrip s.
Proof.
  intros H. unfold rstrip. rewrite rev_app_distr, lstrip_spaces; [reflexivity|].
  apply forallb_rev, H.
Qed.

Lemma lstrip_all_spaces (s : str) : forallb isspace s = true -> lstrip s = [].
Proof.
  intros H. rewrite <- (app_nil_r s). rewrite lstrip_spaces by exact H. reflexivity.
Qed.

(** Whitespace around a string does not change what [strip] returns. *)
Lemma str_strip_spaces (pre s post : str) :
  forallb isspace pre = true -> forallb isspace post = true ->
  str_strip (pre ++ s ++ post) = str_strip s.
Proof.
  intros Hpre Hpost. unfold str_strip.
  rewrite lstrip_spaces by exact Hpre. rewrite lstrip_app.
  destruct (lstrip s) as [|c r] eqn:E.
  - rewrite lstrip_all_spaces by exact Hpost. reflexivity.
  - apply rstrip_spaces, Hpost.
Qed.

Section AssemblerFacts.

Context {U : UnicodeData}.

(** X6.  With a word count of 2 or more, a salt or a normalized input with
    a code point that has no UTF-8 encoding (a lone surrogate) makes
    [friendly_id] raise [UnicodeEncodeError], whatever the wordlist and the
    other parameters are. *)
Theorem friendly_id_encoding_error (user_input secret_salt : str)
  (wordlist : list str) (n_words checksum_len : Z) (sep : str) :
  2 <= n_words ->
  ~ Forall scalar_value secret_salt \/ ~ Forall scalar_value (_normalize user_input) ->
  friendly_id user_input secret_salt wordlist n_words checksum_len sep
  = Raise UnicodeEncodeError.
Proof.
  intros Hn H. unfold friendly_id.
  destruct (Z.ltb_spec n_words 2) as [?|_]; [lia|].
  assert (Hin : ~ Forall scalar_value (_normalize user_input) ->
                forall key, _hmac_sha256 key user_input = Raise UnicodeEncodeError).
  { intros Hi key. unfold _hmac_sha256. rewrite str_encode_raise by exact Hi.
    reflexivity. }
  destruct (str_encode_cases secret_salt) as [E | [key E]]; rewrite E; cbn [bind].
  - reflexivity.
  - destruct H as [Hs|Hi].
    + rewrite str_encode_raise in E by exact Hs. discriminate.
    + rewrite Hin by exact Hi. reflexivity.
Qed.

(** X7.  With an empty wordlist, a word count of 2 or more and a salt and
    an input that can be encoded, [friendly_id] raises
    [ZeroDivisionError]. *)
Theorem friendly_id_empty_wordlist (user_input secret_salt : str)
  (n_words checksum_len : Z) (sep : str) :
  2 <= n_words ->
  Forall scalar_value secret_salt ->
  Forall scalar_value (_normalize user_input) ->
  friendly_id user_input secret_salt [] n_words checksum_len sep
  = Raise ZeroDivisionError.
Proof.
  intros Hn Hs Hi. unfold friendly_id.
  destruct (Z.ltb_spec n_words 2) as [?|_]; [lia|].
  destruct (str_encode_ok _ Hs) as [key ->].
  destruct (str_encode_ok _ Hi) as [m Hm].
  cbn [bind]. unfold _hmac_sha256. rewrite Hm. cbn [bind List.length Z.of_nat].
  rewrite bytes_to_indices_zero_modulus by lia. reflexivity.
Qed.

(** X8.  On a non-empty wordlist, with a salt and an input that can be
    encoded, [friendly_id] returns an identifier for every word count from
    2 to 524288 = 8 + 8 * 65535 and raises [OverflowError] for every larger
    one. *)
Theorem friendly_id_word_limit (user_input secret_salt : str)
  (wordlist : list str) (n_words checksum_len : Z) (sep : str) :
  2 <= n_words -> wordlist <> [] ->
  Forall scalar_value secret_salt ->
  Forall scalar_value (_normalize user_input) ->
  (n_words <= 524288 ->
   exists r, friendly_id user_input secret_salt wordlist n_words checksum_len sep = Ok r)
  /\ (524288 < n_words ->
      friendly_id user_input secret_salt wordlist n_words checksum_len sep
      = Raise OverflowError).
Proof.
  intros Hn Hwl Hs Hi.
  destruct (str_encode_ok _ Hs) as [key Hkey].
  destruct (str_encode_ok _ Hi) as [m Hm].
  split; intros Hlim.
  - rewrite (friendly_id_ok _ _ _ _ _ _ key m); try assumption; try lia.
    eexists. reflexivity.
  - unfold friendly_id.
    destruct (Z.ltb_spec n_words 2) as [?|_]; [lia|].
    rewrite Hkey. cbn [bind]. unfold _hmac_sha256. rewrite Hm. cbn [bind].
    rewrite bytes_to_indices_overflow; [reflexivity | |].
    + destruct wordlist; [contradiction | cbn [List.length]; lia].
    + unfold HMAC.hmac_sha256. rewrite capacity_sha256. lia.
Qed.

(** X9.  The checksum only adds a token: when the call without checksum
    returns [r0], the call with checksum length [c > 0] returns [r0], the
    separator and the checksum of the digest; the checksum depends on the
    salt and the normalized input alone. *)
Theorem friendly_id_checksum_token (user_input secret_salt : str)
  (wordlist : list str) (n_words checksum_len : Z) (sep r0 : str) :
  0 < checksum_len ->
  friendly_id user_input secret_salt wordlist n_words 0 sep = Ok r0 ->
  exists key m,
    str_encode secret_salt = Ok key
    /\ str_encode (_normalize user_input) = Ok m
    /\ friendly_id user_input secret_salt wordlist n_words checksum_len sep
       = Ok (r0 ++ sep ++ _checksum_base36 (HMAC.hmac_sha256 key m) checksum_len).
Proof.
  intros Hc H.
  destruct (friendly_id_inv _ _ _ _ _ _ _ H)
    as [key [m [Hn [Hmax [Hwl [Hkey Hm]]]]]].
  exists key, m. split; [exact Hkey|]. split; [exact Hm|].
  rewrite (friendly_id_ok _ _ _ _ _ _ key m Hn Hmax Hwl Hkey Hm) in H.
  rewrite (friendly_id_ok _ _ _ _ _ _ key m Hn Hmax Hwl Hkey Hm).
  cbv zeta in *. change (0 >? 0) with false in H. cbv iota in H.
  injection H as <-.
  destruct (Z.gtb_spec checksum_len 0) as [_|?]; [|lia].
  rewrite str_join_app; [reflexivity | | discriminate].
  intros E. apply (f_equal (@List.length str)) in E.
  rewrite length_map, expand_spec_length in E. cbn [List.length] in E. lia.
Qed.

(** X10.  More words only add to the identifier: when the call for [n']
    words (without checksum) returns [r'], the call for [n] words,
    [2 <= n < n'], returns a string [r] such that [r'] is [r], the
    separator and the further words. *)
Theorem friendly_id_more_words (user_input secret_salt : str)
  (wordlist : list str) (n n' : Z) (sep r' : str) :
  2 <= n < n' ->
  friendly_id user_input secret_salt wordlist n' 0 sep = Ok r' ->
  exists r rest,
    friendly_id user_input secret_salt wordlist n 0 sep = Ok r
    /\ r' = r ++ sep ++ rest.
Proof.
  intros Hn H.
  destruct (friendly_id_inv _ _ _ _ _ _ _ H)
    as [key [m [Hn' [Hmax [Hwl [Hkey Hm]]]]]].
  rewrite (friendly_id_ok _ _ _ _ _ _ key m Hn' Hmax Hwl Hkey Hm) in H.
  rewrite (friendly_id_ok _ _ _ _ _ _ key m) by (assumption || lia).
  cbv zeta in *. change (0 >? 0) with false in *. cbv iota in *.
  injection H as <-.
  set (d := HMAC.hmac_sha256 key m).
  set (v := Z.of_nat (List.length wordlist)).
  set (w := fun i : Z => nth (Z.to_nat i) wordlist []).
  pose proof (expand_spec_prefix d v n n' ltac:(lia)) as Hp.
  pose proof (expand_spec_length d v n) as Hl.
  pose proof (expand_spec_length d v n') as Hl'.
  eexists. exists (str_join sep (map w (skipn (Z.to_nat n) (expand_spec d v n')))).
  split; [reflexivity|].
  rewrite <- (firstn_skipn (Z.to_nat n) (expand_spec d v n')) at 1.
  rewrite <- Hp, map_app. apply str_join_app.
  - intros E. apply (f_equal (@List.length str)) in E.
    rewrite length_map, Hl in E. cbn [List.length] in E. lia.
  - intros E. apply (f_equal (@List.length str)) in E.
    rewrite length_map, length_skipn, Hl' in E. cbn [List.length] in E. lia.
Qed.

(** X11.  Whitespace before and after the input is ignored: [_normalize]
    and therefore [friendly_id] give the same result. *)
Theorem friendly_id_surrounding_whitespace (pre post user_input secret_salt : str)
  (wordlist : list str) (n_words checksum_len : Z) (sep : str) :
  forallb isspace pre = true -> forallb isspace post = true ->
  _normalize (pre ++ user_input ++ post) = _normalize user_input
  /\ friendly_id (pre ++ user_input ++ post) secret_salt wordlist n_words checksum_len sep
     = friendly_id user_input secret_salt wordlist n_words checksum_len sep.
Proof.
  intros Hpre Hpost.
  assert (Hn : _normalize (pre ++ user_input ++ post) = _normalize user_input).
  { unfold _normalize. rewrite str_strip_spaces by assumption. reflexivity. }
  split; [exact Hn|].
  unfold friendly_id, _hmac_sha256. rewrite Hn. reflexivity.
Qed.

End AssemblerFacts.

Lemma friendly_id_encoding_error_witness :
  friendly_id (U := UCD.excerpt) (lit "user@example.com") [0x73; 0xDC00] wordlist512 3 2 (lit "-")
  = Raise UnicodeEncodeError.
Proof.
  apply (friendly_id_encoding_error (U := UCD.excerpt)); [lia|].
  left. intros H. inversion H as [|c r Hc Hr]; subst.
  inversion Hr as [|c' r' Hc' _]; subst. unfold scalar_value in Hc'. lia.
Defined.

Lemma friendly_id_empty_wordlist_witness :
  friendly_id (U := UCD.excerpt) (lit "user@example.com") (lit "test-salt") [] 3 2 (lit "-")
  = Raise ZeroDivisionError.
Proof.
  apply (friendly_id_empty_wordlist (U := UCD.excerpt)); [lia | |];
    apply is_scalar_spec; vm_compute; reflexivity.
Defined.

Lemma friendly_id_word_limit_witness :
  (20 <= 524288 ->
   exists r, friendly_id (U := UCD.excerpt) (lit "user@example.com") (lit "test-salt")
               wordlist512 20 2 (lit "-") = Ok r)
  /\ (524288 < 20 ->
      friendly_id (U := UCD.excerpt) (lit "user@example.com") (lit "test-salt")
        wordlist512 20 2 (lit "-") = Raise OverflowError).
Proof.
  apply (friendly_id_word_limit (U := UCD.excerpt)); [lia | discriminate | |];
    apply is_scalar_spec; vm_compute; reflexivity.
Defined.

Lemma friendly_id_checksum_token_witness :
  exists key m,
    str_encode (lit "test-salt") = Ok key
    /\ str_encode (_normalize (U := UCD.excerpt) (lit "user@example.com")) = Ok m
    /\ friendly_id (U := UCD.excerpt) (lit "user@example.com") (lit "test-salt")
         wordlist512 3 2 (lit "-")
       = Ok (lit "akx-afb-afx" ++ lit "-" ++ _checksum_base36 (HMAC.hmac_sha256 key m) 2).
Proof.
  apply (friendly_id_checksum_token (U := UCD.excerpt)); [lia|].
  vm_compute. reflexivity.
Defined.

Lemma friendly_id_more_words_witness :
  exists r rest,
    friendly_id (U := UCD.excerpt) (lit "user@example.com") (lit "test-salt")
      wordlist512 2 0 (lit "-") = Ok r
    /\ lit "akx-afb-afx" = r ++ lit "-" ++ rest.
Proof.
  apply (friendly_id_more_words (U := UCD.excerpt) _ _ _ 2 3); [lia|].
  vm_compute. reflexivity.
Defined.

Lemma friendly_id_surrounding_whitespace_witness :
  _normalize (U := UCD.excerpt) (lit "  " ++ lit "user@example.com" ++ [0x09; 0x0A])
  = _normalize (U := UCD.excerpt) (lit "user@example.com")
  /\ friendly_id (U := UCD.excerpt) (lit "  " ++ lit "user@example.com" ++ [0x09; 0x0A])
       (lit "test-salt") wordlist512 3 2 (lit "-")
     = friendly_id (U := UCD.excerpt) (lit "user@example.com")
         (lit "test-salt") wordlist512 3 2 (lit "-").
Proof.
  apply (friendly_id_surrounding_whitespace (U := UCD.excerpt)); reflexivity.
Defined.

(** ** The normalizer on ASCII input *)

Lemma isspace_ascii_lower (c : Z) : isspace (ascii_lower c) = isspace c.
Proof.
  unfold ascii_lower.
  destruct (Z.leb_spec 0x41 c); destruct (Z.leb_spec c 0x5A); cbn [andb];
    try reflexivity.
  unfold isspace.
  repeat match goal with
         | |- context [?x <=? ?y] => destruct (Z.leb_spec x y); try lia
         | |- context [?x =? ?y] => destruct (Z.eqb_spec x y); try lia
         end; reflexivity.
Qed.

Lemma collapse_spaces (ws : str) :
  forallb isspace ws = true -> forall e g, collapse e g ws = [].
Proof.
  induction ws as [|c r IH]; cbn [forallb collapse]; intros H e g.
  - reflexivity.
  - apply andb_prop in H. destruct H as [Hc Hr]. rewrite Hc. apply IH, Hr.
Qed.

Lemma collapse_leading (ws r : str) (e : bool) :
  forallb isspace ws = true -> collapse e e (ws ++ r) = collapse e e r.
Proof.
  induction ws as [|c ws IH]; cbn [forallb app collapse]; intros H.
  - reflexivity.
  - apply andb_prop in H. destruct H as [Hc Hr]. rewrite Hc. apply IH, Hr.
Qed.

Lemma collapse_trailing (r ws : str) :
  forallb isspace ws = true -> forall e g, collapse e g (r ++ ws) = collapse e g r.
Proof.
  intros H. induction r as [|c r IH]; intros e g; cbn [app collapse].
  - apply collapse_spaces, H.
  - destruct (isspace c); rewrite IH; reflexivity.
Qed.

Lemma forallb_isspace_lower (ws : str) :
  forallb isspace ws = true -> forallb isspace (map ascii_lower ws) = true.
Proof.
  induction ws as [|c r IH]; cbn [forallb map]; intros H.
  - reflexivity.
  - apply andb_prop in H. destruct H as [Hc Hr].
    rewrite isspace_ascii_lower, Hc, IH by exact Hr. reflexivity.
Qed.

Lemma str_strip_Forall (P : Z -> Prop) (s : str) :
  Forall P s -> Forall P (str_strip s).
Proof.
  intros H. unfold str_strip, rstrip.
  apply Forall_rev, lstrip_Forall, Forall_rev, lstrip_Forall, H.
Qed.

Section AsciiInput.

Context {U : UnicodeData}.

Lemma normalize_ascii (s : str) :
  ascii_exact U -> Forall (fun c => is_ascii c = true) s ->
  _normalize s = collapse_ws (map ascii_lower s).
Proof.
  intros HU Hs.
  pose proof (str_strip_Forall _ _ Hs) as Hstrip.
  destruct (HU _ Hstrip) as [Hlow _].
  destruct (HU (map ascii_lower (str_strip s))) as [_ Hnf].
  { apply Forall_forall. intros x Hx. apply in_map_iff in Hx.
    destruct Hx as [c [<- Hc]]. rewrite Forall_forall in Hstrip.
    apply ascii_lower_lower_ascii, Hstrip, Hc. }
  rewrite normalize_collapse, Hlow, Hnf.
  destruct (str_strip_spec s) as [pre [post [Hsplit [Hpre [Hpost _]]]]].
  rewrite Hsplit at 2. rewrite !map_app. unfold collapse_ws.
  rewrite collapse_leading by (apply forallb_isspace_lower, Hpre).
  rewrite collapse_trailing by (apply forallb_isspace_lower, Hpost).
  reflexivity.
Qed.

(** X12.  On ASCII input (with Unicode tables that lowercase ASCII letter
    by letter and whose NFKC leaves ASCII alone) [_normalize] is ASCII
    lowercasing followed by whitespace collapsing; so two ASCII inputs that
    differ only in letter case and in the amount of whitespace get the same
    identifier. *)
Theorem friendly_id_ascii_case_whitespace (a b secret_salt : str)
  (wordlist : list str) (n_words checksum_len : Z) (sep : str) :
  ascii_exact U ->
  Forall (fun c => is_ascii c = true) a ->
  Forall (fun c => is_ascii c = true) b ->
  _normalize a = collapse_ws (map ascii_lower a)
  /\ (collapse_ws (map ascii_lower a) = collapse_ws (map ascii_lower b) ->
      friendly_id a secret_salt wordlist n_words checksum_len sep
      = friendly_id b secret_salt wordlist n_words checksum_len sep).
Proof.
  intros HU Ha Hb. split; [apply normalize_ascii; assumption|].
  intros H. unfold friendly_id, _hmac_sha256.
  rewrite (normalize_ascii a), (normalize_ascii b), H by assumption.
  reflexivity.
Qed.

End AsciiInput.

Lemma friendly_id_ascii_case_whitespace_witness :
  _normalize (U := UCD.excerpt) (lit " Ada   LOVELACE ")
  = collapse_ws (map ascii_lower (lit " Ada   LOVELACE "))
  /\ (collapse_ws (map ascii_lower (lit " Ada   LOVELACE "))
      = collapse_ws (map ascii_lower (lit "ada lovelace")) ->
      friendly_id (U := UCD.excerpt) (lit " Ada   LOVELACE ") (lit "test-salt")
        wordlist512 3 2 (lit "-")
      = friendly_id (U := UCD.excerpt) (lit "ada lovelace") (lit "test-salt")
          wordlist512 3 2 (lit "-")).
Proof.
  apply (friendly_id_ascii_case_whitespace (U := UCD.excerpt)).
  - apply excerpt_ascii_exact.
  - apply Forall_forall. intros c Hc.
    assert (H : forallb is_ascii (lit " Ada   LOVELACE ") = true) by reflexivity.
    rewrite forallb_forall in H. apply H, Hc.
  - apply Forall_forall. intros c Hc.
    assert (H : forallb is_ascii (lit "ada lovelace") = true) by reflexivity.
    rewrite forallb_forall in H. apply H, Hc.
Defined.

(** ** The wordlist loader *)

Lemma split_from_tokens (s : str) :
  forall tok, Forall (fun c => isspace c = false) tok ->
    Forall is_token (split_from tok s).
Proof.
  assert (Hrev : forall tok, tok <> [] ->
                 Forall (fun c => isspace c = false) tok -> is_token (rev tok)).
  { intros tok Hne Htok. split.
    - intros E. apply Hne. rewrite <- (rev_involutive tok), E. reflexivity.
    - apply Forall_rev, Htok. }
  induction s as [|c r IH]; intros tok Htok; cbn [split_from].
  - destruct tok as [|t tok]; [constructor|].
    constructor; [|constructor]. apply Hrev; [discriminate | exact Htok].
  - destruct (isspace c) eqn:E.
    + destruct tok as [|t tok]; [apply IH; constructor|].
      constructor; [apply Hrev; [discriminate | exact Htok]|].
      apply IH. constructor.
    + apply IH. constructor; assumption.
Qed.

Lemma str_split_tokens (s : str) : Forall is_token (str_split s).
Proof. apply split_from_tokens. constructor. Qed.

Lemma lstrip_fixed_head (c : Z) (r : str) :
  lstrip (c :: r) = c :: r -> isspace c = false.
Proof.
  cbn [lstrip]. destruct (isspace c); [|reflexivity].
  intros H. destruct (lstrip_spec r) as [pre [Hr _]].
  rewrite H in Hr. apply (f_equal (@List.length Z)) in Hr.
  rewrite length_app in Hr. cbn [List.length] in Hr. lia.
Qed.

Lemma str_split_nonblank (s : str) :
  s <> [] -> lstrip s = s -> str_split s <> [].
Proof.
  destruct s as [|c r]; [contradiction|]. intros _ H.
  apply lstrip_fixed_head in H. unfold str_split. cbn [split_from]. rewrite H.
  destruct (join_split_from r) as [_ Htok].
  apply (Htok [c]). discriminate.
Qed.

Lemma list_getitem_last {A : Type} (l : list A) (a : A) :
  list_getitem (l ++ [a]) (-1) = Ok a.
Proof.
  unfold list_getitem. rewrite length_app. cbn [List.length].
  change (-1 <? 0) with true. cbv iota.
  destruct (Z.ltb_spec (-1 + Z.of_nat (List.length l + 1)) 0) as [?|_]; [lia|].
  replace (Z.to_nat (-1 + Z.of_nat (List.length l + 1))) with (List.length l) by lia.
  rewrite nth_error_app2 by lia. rewrite Nat.sub_diag. reflexivity.
Qed.

(** The loop over the lines never fails: it appends tokens to [vocab]. *)
Lemma read_lines_spec (lines : list str) :
  forall vocab, exists toks,
    read_lines lines vocab = Ok (vocab ++ toks) /\ Forall is_token toks.
Proof.
  induction lines as [|line rest IH]; intros vocab; cbn [read_lines].
  - exists []. rewrite app_nil_r. split; [reflexivity | constructor].
  - destruct (str_strip_spec line) as [_ [_ [_ [_ [_ [Hl _]]]]]].
    destruct (str_strip line) as [|c r] eqn:E.
    + cbn [orb]. apply IH.
    + destruct (startswith (lit "#") (c :: r)); cbn [orb]; [apply IH|].
      pose proof (str_split_nonblank (c :: r) ltac:(discriminate) Hl) as Hne.
      pose proof (str_split_tokens (c :: r)) as Htok.
      destruct (exists_last Hne) as [front [w Hw]]. rewrite Hw in *.
      rewrite list_getitem_last. cbn [bind].
      destruct (IH (vocab ++ [w])) as [toks [Hr Ht]].
      exists (w :: toks). rewrite Hr, <- app_assoc. split; [reflexivity|].
      constructor; [|exact Ht].
      apply Forall_app in Htok. destruct Htok as [_ Hw'].
      inversion Hw'; assumption.
Qed.

Lemma read_lines_app (l1 l2 : list str) :
  forall vocab,
    read_lines (l1 ++ l2) vocab = bind (read_lines l1 vocab) (read_lines l2).
Proof.
  induction l1 as [|line rest IH]; intros vocab; cbn [app read_lines].
  - reflexivity.
  - destruct (match str_strip line with [] => true | _ => false end
              || startswith (lit "#") (str_strip line)).
    + apply IH.
    + destruct (list_getitem (str_split (str_strip line)) (-1)) as [w|e|];
        cbn [bind]; [apply IH | reflexivity | reflexivity].
Qed.

Lemma nodup_length_le (l : list str) :
  (List.length (nodup str_eq_dec l) <= List.length l)%nat.
Proof.
  induction l as [|a l IH]; cbn [nodup List.length]; [lia|].
  destruct (in_dec str_eq_dec a l); cbn [List.length]; lia.
Qed.

(** [len(vocab) == len(set(vocab))] says that the words are distinct. *)
Lemma len_set_NoDup (l : list str) :
  len_set l = List.length l <-> NoDup l.
Proof.
  unfold len_set. split.
  - induction l as [|a l IH]; cbn [nodup List.length]; intros H.
    + constructor.
    + pose proof (nodup_length_le l).
      destruct (in_dec str_eq_dec a l) as [Hin|Hnin].
      * lia.
      * cbn [List.length] in H. constructor; [exact Hnin | apply IH; lia].
  - intros H. rewrite nodup_fixed_point by exact H. reflexivity.
Qed.

Lemma load_wordlist_valid_facts (lines wordlist : list str) :
  load_wordlist lines = Ok wordlist ->
  (512 <= List.length wordlist)%nat /\ NoDup wordlist.
Proof.
  unfold load_wordlist. intros H.
  destruct (read_lines_spec lines []) as [toks [Hr _]]. cbn [app] in Hr.
  rewrite Hr in H. cbn [bind] in H.
  destruct (Z.ltb_spec (Z.of_nat (List.length toks)) 512) as [?|Hlen];
    [discriminate|].
  destruct (Nat.eqb_spec (List.length toks) (len_set toks)) as [Heq|?];
    [|discriminate].
  cbn [negb] in H. injection H as <-.
  split; [lia|]. apply len_set_NoDup. symmetry. exact Heq.
Qed.

(** X13.  A wordlist that [load_wordlist] returns has at least 512 words,
    all distinct, each of them not empty and free of whitespace. *)
Theorem load_wordlist_valid (lines wordlist : list str) :
  load_wordlist lines = Ok wordlist ->
  (512 <= List.length wordlist)%nat /\ NoDup wordlist /\ Forall is_token wordlist.
Proof.
  unfold load_wordlist. intros H.
  destruct (read_lines_spec lines []) as [toks [Hr Ht]]. cbn [app] in Hr.
  rewrite Hr in H. cbn [bind] in H.
  destruct (Z.ltb_spec (Z.of_nat (List.length toks)) 512) as [?|Hlen];
    [discriminate|].
  destruct (Nat.eqb_spec (List.length toks) (len_set toks)) as [Heq|?];
    [|discriminate].
  cbn [negb] in H. injection H as <-.
  split; [lia|]. split; [|exact Ht].
  apply len_set_NoDup. symmetry. exact Heq.
Qed.

Lemma load_wordlist_valid_witness :
  (512 <= List.length wordlist512)%nat /\ NoDup wordlist512
  /\ Forall is_token wordlist512.
Proof.
  apply (load_wordlist_valid wordlist512). vm_compute. reflexivity.
Defined.

(** X14.  [load_wordlist] reads every file to its end, then either raises
    [ValueError], when fewer than 512 words were read or two of them are
    equal, or returns the words read; it raises nothing else. *)
Theorem load_wordlist_outcome (lines : list str) :
  exists vocab,
    read_lines lines [] = Ok vocab
    /\ ((List.length vocab < 512)%nat \/ ~ NoDup vocab ->
        load_wordlist lines = Raise ValueError)
    /\ ((512 <= List.length vocab)%nat /\ NoDup vocab ->
        load_wordlist lines = Ok vocab).
Proof.
  destruct (read_lines_spec lines []) as [toks [Hr _]]. cbn [app] in Hr.
  exists toks. split; [exact Hr|]. unfold load_wordlist. rewrite Hr. cbn [bind].
  split.
  - intros H.
    destruct (Z.ltb_spec (Z.of_nat (List.length toks)) 512) as [?|Hlen];
      [reflexivity|].
    destruct (Nat.eqb_spec (List.length toks) (len_set toks)) as [Heq|?];
      [|reflexivity].
    destruct H as [H|H]; [lia|].
    exfalso. apply H, len_set_NoDup. symmetry. exact Heq.
  - intros [Hlen Hnd].
    destruct (Z.ltb_spec (Z.of_nat (List.length toks)) 512) as [?|_]; [lia|].
    apply len_set_NoDup in Hnd.
    destruct (Nat.eqb_spec (List.length toks) (len_set toks)) as [_|?];
      [reflexivity | congruence].
Qed.

Lemma load_wordlist_outcome_witness :
  load_wordlist [lit "# words"; lit "1 alpha"; lit "2 alpha"] = Raise ValueError.
Proof.
  destruct (load_wordlist_outcome [lit "# words"; lit "1 alpha"; lit "2 alpha"])
    as [vocab [Hr [Hbad _]]].
  apply Hbad. left. vm_compute in Hr. injection Hr as <-. cbn [List.length]. lia.
Defined.

(** X15.  Blank lines and lines whose first character after stripping is
    [#] do not count: removing such a line from the file changes nothing
    in what [load_wordlist] does. *)
Theorem load_wordlist_skips (before after : list str) (line : str) :
  str_strip line = [] \/ startswith (lit "#") (str_strip line) = true ->
  load_wordlist (before ++ line :: after) = load_wordlist (before ++ after).
Proof.
  intros H. unfold load_wordlist. rewrite !read_lines_app.
  destruct (read_lines before []) as [v| |]; cbn [bind]; try reflexivity.
  cbn [read_lines].
  replace (match str_strip line with [] => true | _ => false end
           || startswith (lit "#") (str_strip line)) with true; [reflexivity|].
  destruct H as [-> | ->]; [reflexivity|]. symmetry. apply orb_true_r.
Qed.

Lemma load_wordlist_skips_witness :
  load_wordlist (wordlist512 ++ lit "  # EFF list " :: [lit "zzz"])
  = load_wordlist (wordlist512 ++ [lit "zzz"]).
Proof.
  apply load_wordlist_skips. right. reflexivity.
Defined.

Lemma split_from_app_space (s1 s2 : str) (c : Z) :
  isspace c = true ->
  forall tok, split_from tok (s1 ++ c :: s2) = split_from tok s1 ++ split_from [] s2.
Proof.
  intros Hc. induction s1 as [|d r IH]; intros tok; cbn [app split_from].
  - rewrite Hc. destruct tok; reflexivity.
  - destruct (isspace d).
    + destruct tok; rewrite IH; reflexivity.
    + apply IH.
Qed.

Lemma split_from_leading (ws s : str) :
  forallb isspace ws = true -> split_from [] (ws ++ s) = split_from [] s.
Proof.
  induction ws as [|c r IH]; cbn [forallb app split_from]; intros H.
  - reflexivity.
  - apply andb_prop in H. destruct H as [Hc Hr]. rewrite Hc. apply IH, Hr.
Qed.

Lemma split_from_word (w s : str) :
  Forall (fun c => isspace c = false) w ->
  forall tok, split_from tok (w ++ s) = split_from (rev w ++ tok) s.
Proof.
  induction 1 as [|c r Hc _ IH]; intros tok; cbn [app split_from rev].
  - reflexivity.
  - rewrite Hc, IH, <- app_assoc. reflexivity.
Qed.

Lemma split_from_trailing (ws : str) :
  forallb isspace ws = true ->
  forall tok, split_from tok ws = match tok with [] => [] | _ => [rev tok] end.
Proof.
  induction ws as [|c r IH]; cbn [forallb split_from]; intros H tok.
  - reflexivity.
  - apply andb_prop in H. destruct H as [Hc Hr]. rewrite Hc.
    destruct tok; rewrite IH by exact Hr; reflexivity.
Qed.

(** The last token of a line that ends with a word and whitespace. *)
Lemma str_split_last_word (idx sp word trail : str) :
  idx = [] \/ sp <> [] ->
  forallb isspace sp = true -> is_token word -> forallb isspace trail = true ->
  str_split (idx ++ sp ++ word ++ trail) = str_split idx ++ [word].
Proof.
  intros Hshape Hsp [Hne Hw] Htrail. unfold str_split.
  assert (Hword : split_from [] (word ++ trail) = [word]).
  { rewrite split_from_word by exact Hw. rewrite app_nil_r.
    rewrite split_from_trailing by exact Htrail.
    destruct (rev word) as [|x l] eqn:E.
    - exfalso. apply Hne. rewrite <- (rev_involutive word), E. reflexivity.
    - rewrite <- E, rev_involutive. reflexivity. }
  destruct sp as [|c sp'].
  - destruct Hshape as [-> | H]; [|contradiction]. cbn [app]. exact Hword.
  - cbn [forallb] in Hsp. apply andb_prop in Hsp. destruct Hsp as [Hc Hsp'].
    cbn [app]. rewrite split_from_app_space by exact Hc.
    rewrite split_from_leading by exact Hsp'. rewrite Hword. reflexivity.
Qed.

(** X16.  A line contributes its last word: for a line made of an index
    part, whitespace, a word and trailing whitespace (the index part may be
    missing), which is not a comment, the loop of [load_wordlist] appends
    the word to the vocabulary, whatever the index part is. *)
Theorem read_lines_last_token (idx sp word trail : str) (rest vocab : list str) :
  idx = [] \/ sp <> [] ->
  forallb isspace sp = true -> is_token word -> forallb isspace trail = true ->
  startswith (lit "#") (str_strip (idx ++ sp ++ word ++ trail)) = false ->
  read_lines ((idx ++ sp ++ word ++ trail) :: rest) vocab
  = read_lines rest (vocab ++ [word]).
Proof.
  intros Hshape Hsp Hword Htrail Hcomment.
  set (line := idx ++ sp ++ word ++ trail) in *.
  cbn [read_lines]. rewrite Hcomment.
  destruct (str_strip_spec line) as [pre [post [Hline [Hpre [Hpost _]]]]].
  assert (Hsplit : str_split (str_strip line) = str_split line).
  { rewrite Hline at 2. unfold str_split.
    rewrite split_from_leading by exact Hpre.
    clear - Hpost. generalize (@nil Z) as tok.
    induction (str_strip line) as [|c r IH]; intros tok; cbn [app split_from].
    - rewrite split_from_trailing by exact Hpost. reflexivity.
    - destruct (isspace c); [destruct tok; rewrite IH; reflexivity | apply IH]. }
  assert (Hne : str_strip line <> []).
  { intros E. rewrite E in Hsplit. unfold line in Hsplit.
    rewrite str_split_last_word in Hsplit by assumption.
    destruct (str_split idx); discriminate. }
  destruct (str_strip line) as [|c r] eqn:E; [contradiction|].
  cbn [orb]. rewrite Hsplit. unfold line.
  rewrite str_split_last_word by assumption.
  rewrite list_getitem_last. reflexivity.
Qed.

Lemma read_lines_last_token_witness :
  read_lines ((lit "11111" ++ [0x09] ++ lit "abacus" ++ [0x0A]) :: []) []
  = read_lines [] ([] ++ [lit "abacus"]).
Proof.
  apply read_lines_last_token.
  - right. discriminate.
  - reflexivity.
  - split; [discriminate|].
    apply Forall_forall. intros c Hc.
    assert (H : forallb (fun c => negb (isspace c)) (lit "abacus") = true)
      by reflexivity.
    rewrite forallb_forall in H. apply negb_true_iff, H, Hc.
  - reflexivity.
  - reflexivity.
Defined.

(** X17.  In a wordlist that [load_wordlist] returned, different indices
    give different words: [wordlist[i] = wordlist[j]] only when [i = j],
    for indices in [0, len(wordlist)). *)
Theorem load_wordlist_index_injective (lines wordlist : list str) (i j : Z) :
  load_wordlist lines = Ok wordlist ->
  0 <= i < Z.of_nat (List.length wordlist) ->
  0 <= j < Z.of_nat (List.length wordlist) ->
  list_getitem wordlist i = list_getitem wordlist j ->
  i = j.
Proof.
  intros Hload Hi Hj H.
  apply load_wordlist_valid_facts in Hload. destruct Hload as [_ Hnd].
  rewrite (list_getitem_ok wordlist [] i Hi) in H.
  rewrite (list_getitem_ok wordlist [] j Hj) in H.
  injection H as H.
  apply (proj1 (NoDup_nth wordlist []) Hnd) in H; lia.
Qed.

Lemma load_wordlist_index_injective_witness : 7 = 3 + 4.
Proof.
  apply (load_wordlist_index_injective wordlist512 wordlist512).
  - vm_compute. reflexivity.
  - vm_compute. split; [discriminate | reflexivity].
  - vm_compute. split; [discriminate | reflexivity].
  - reflexivity.
Defined.

(** ** The salt generator *)

Lemma hexdigits_hex (d : Z) :
  0 <= d < 16 -> is_hexdigit (nth (Z.to_nat d) hexdigits 0).
Proof.
  intros H. unfold is_hexdigit.
  assert (Hn : (Z.to_nat d < 16)%nat) by lia.
  destruct (Z.to_nat d) as [|n]; [vm_compute; intuition discriminate|].
  do 15 (destruct n as [|n]; [vm_compute; intuition discriminate|]).
  lia.
Qed.

Lemma byte_hex_digits (x : byte) : Forall is_hexdigit (byte_hex x).
Proof.
  pose proof (byte_val_range x) as Hx. unfold byte_hex.
  constructor; [|constructor; [|constructor]]; apply hexdigits_hex.
  - split; [apply Z.div_pos; lia | apply Z.div_lt_upper_bound; lia].
  - apply Z.mod_pos_bound. lia.
Qed.

Lemma bytes_hex_digits (b : bytes) : Forall is_hexdigit (bytes_hex b).
Proof.
  induction b as [|x r IH]; cbn [bytes_hex flat_map].
  - constructor.
  - apply Forall_app. split; [apply byte_hex_digits | exact IH].
Qed.

Lemma bytes_hex_length (b : bytes) :
  List.length (bytes_hex b) = (2 * List.length b)%nat.
Proof.
  induction b as [|x r IH]; cbn [bytes_hex flat_map List.length].
  - reflexivity.
  - rewrite length_app. fold (bytes_hex r). rewrite IH. cbn [byte_hex List.length]. lia.
Qed.

Lemma hexdigit_encode (s : str) :
  Forall is_hexdigit s -> str_encode s = Ok (map byte_of s).
Proof.
  induction 1 as [|c r Hc _ IH]; cbn [str_encode map].
  - reflexivity.
  - rewrite IH. unfold utf8_char, is_hexdigit in *.
    destruct (Z.ltb_spec c 0); [lia|].
    destruct (Z.ltb_spec 0x10FFFF c); [lia|]. cbn [orb].
    destruct (Z.ltb_spec c 0x80); [|lia]. reflexivity.
Qed.

Lemma byte_hex_unhex (x : byte) (r : str) :
  unhex (byte_hex x ++ r) = x :: unhex r.
Proof.
  destruct x; reflexivity.
Qed.

Lemma bytes_hex_unhex (b : bytes) : unhex (bytes_hex b) = b.
Proof.
  induction b as [|x r IH]; cbn [bytes_hex flat_map].
  - reflexivity.
  - fold (bytes_hex r). rewrite byte_hex_unhex, IH. reflexivity.
Qed.

(** X18.  A salt that [create_salt_digest] makes from [byte_length] bytes
    of entropy has [2 * byte_length] characters, all of them lowercase
    hexadecimal digits; as a salt of [friendly_id] it can always be
    encoded, and the key is one byte per character. *)
Theorem create_salt_digest_hex (urandom : Z -> outcome bytes) (byte_length : Z)
  (entropy : bytes) :
  urandom byte_length = Ok entropy ->
  List.length entropy = Z.to_nat byte_length ->
  exists salt,
    create_salt_digest urandom byte_length = Ok salt
    /\ List.length salt = (2 * Z.to_nat byte_length)%nat
    /\ Forall is_hexdigit salt
    /\ str_encode salt = Ok (map byte_of salt).
Proof.
  intros Hu Hlen. exists (bytes_hex entropy). unfold create_salt_digest.
  rewrite Hu. cbn [bind]. split; [reflexivity|]. split; [|split].
  - rewrite bytes_hex_length, Hlen. reflexivity.
  - apply bytes_hex_digits.
  - apply hexdigit_encode, bytes_hex_digits.
Qed.

Lemma create_salt_digest_hex_witness :
  exists salt,
    create_salt_digest (fun n => Ok (firstn (Z.to_nat n) (SHA256.sha256 []))) 4 = Ok salt
    /\ List.length salt = (2 * Z.to_nat 4)%nat
    /\ Forall is_hexdigit salt
    /\ str_encode salt = Ok (map byte_of salt).
Proof.
  apply (create_salt_digest_hex _ 4 (firstn 4 (SHA256.sha256 []))); reflexivity.
Defined.

(** X19.  Different entropy gives different salts: the hexadecimal
    rendering of [create_salt_digest] loses nothing. *)
Theorem create_salt_digest_injective (urandom1 urandom2 : Z -> outcome bytes)
  (n1 n2 : Z) (entropy1 entropy2 : bytes) (salt : str) :
  urandom1 n1 = Ok entropy1 -> urandom2 n2 = Ok entropy2 ->
  create_salt_digest urandom1 n1 = Ok salt ->
  create_salt_digest urandom2 n2 = Ok salt ->
  entropy1 = entropy2.
Proof.
  unfold create_salt_digest. intros H1 H2. rewrite H1, H2. cbn [bind].
  intros E1 E2. injection E1 as E1. injection E2 as E2.
  rewrite <- (bytes_hex_unhex entropy1), <- (bytes_hex_unhex entropy2).
  rewrite E1, E2. reflexivity.
Qed.

Lemma create_salt_digest_injective_witness :
  unhex (lit "00ff1a9c") = [x00; xff; x1a; x9c].
Proof.
  apply (create_salt_digest_injective
           (fun _ => Ok (unhex (lit "00ff1a9c"))) (fun _ => Ok [x00; xff; x1a; x9c])
           4 4 _ _ (lit "00ff1a9c")); reflexivity.
Defined.

(** ** Calls on the list objects *)

Lemma set_nth_last {A : Type} (a : list A) (x y : A) :
  set_nth (List.length a) x (a ++ [y]) = a ++ [x].
Proof.
  induction a as [|z a IH]; cbn [List.length app set_nth].
  - reflexivity.
  - rewrite IH. reflexivity.
Qed.

Lemma nth_last {A : Type} (a : list A) (y d : A) :
  nth (List.length a) (a ++ [y]) d = y.
Proof.
  rewrite app_nth2 by lia. rewrite Nat.sub_diag. reflexivity.
Qed.

(** The loop over a pool, run on the store, does what [scan_pool] does to
    the list [out] refers to, and touches no other object. *)
Lemma scan_pool_st_sim (v : Z) (ibase : list (list Z)) (strs : list (list str))
  (pool : bytes) :
  forall needed out, exists out',
    scan_pool_st v pool needed (List.length ibase) (Store (ibase ++ [out]) strs)
    = (outcome_map fst (scan_pool v pool needed out), Store (ibase ++ [out']) strs)
    /\ forall n' o, scan_pool v pool needed out = Ok (n', o) -> out' = o.
Proof.
  induction pool as [l Hl | a b c d r IH] using chunk_ind; intros needed out.
  - exists out. rewrite scan_pool_short by exact Hl.
    destruct l as [|x [|y [|z [|w l]]]]; cbn [List.length] in Hl; try lia;
      (split; [reflexivity | intros n' o E; injection E as _ <-; reflexivity]).
  - cbn [scan_pool scan_pool_st]. unfold py_mod.
    destruct (v =? 0).
    + exists out. split; [reflexivity | discriminate].
    + cbn [bind]. unfold bindM at 1, lift at 1.
      unfold bindM at 1, append_int at 1.
      cbn [int_lists str_lists]. rewrite nth_last, set_nth_last.
      destruct (needed - 1 =? 0).
      * eexists. split; [reflexivity|].
        intros n' o E. injection E as _ <-. reflexivity.
      * apply IH.
Qed.

Lemma while_needed_st_sim (v : Z) (ibase : list (list Z)) (strs : list (list str))
  (fuel : nat) :
  forall pool ctr needed out, exists out',
    while_needed_st fuel v pool ctr needed (List.length ibase)
      (Store (ibase ++ [out]) strs)
    = (outcome_map (fun _ => tt) (while_needed fuel v pool ctr needed out),
       Store (ibase ++ [out']) strs)
    /\ forall o, while_needed fuel v pool ctr needed out = Ok o -> out' = o.
Proof.
  induction fuel as [|fuel IH]; intros pool ctr needed out;
    cbn [while_needed while_needed_st]; destruct (needed >? 0).
  - exists out. split; [reflexivity | discriminate].
  - exists out. split; [reflexivity|]. intros o E. injection E as <-. reflexivity.
  - destruct (scan_pool_st_sim v ibase strs pool needed out) as [out1 [Hs Ho]].
    unfold bindM at 1. rewrite Hs.
    destruct (scan_pool v pool needed out) as [[n1 o1]|e|]; cbn [outcome_map fst bind].
    + rewrite (Ho n1 o1 eq_refl).
      destruct (n1 >? 0).
      * unfold bindM at 1, bindM at 1, lift at 1.
        destruct (int_to_bytes (ctr + 1) 2) as [cb|e|]; cbn [bind].
        -- unfold ret at 1. apply IH.
        -- exists o1. split; [reflexivity | discriminate].
        -- exists o1. split; [reflexivity | discriminate].
      * unfold bindM at 1, ret at 1. cbn [bind]. apply IH.
    + exists out1. split; [reflexivity | discriminate].
    + exists out1. split; [reflexivity | discriminate].
  - exists out. split; [reflexivity|]. intros o E. injection E as <-. reflexivity.
Qed.

Lemma bytes_to_indices_st_sim (b : bytes) (v n : Z) (h : store) :
  exists out',
    _bytes_to_indices_st b v n h
    = (outcome_map (fun _ => List.length (int_lists h)) (_bytes_to_indices b v n),
       Store (int_lists h ++ [out']) (str_lists h))
    /\ forall o, _bytes_to_indices b v n = Ok o -> out' = o.
Proof.
  unfold _bytes_to_indices_st, _bytes_to_indices.
  unfold bindM at 1, new_ints at 1.
  destruct (while_needed_st_sim v (int_lists h) (str_lists h)
              (S (Z.to_nat n)) b 0 n []) as [out' [Hw Ho]].
  unfold bindM at 1. rewrite Hw. exists out'. split; [|exact Ho].
  destruct (while_needed (S (Z.to_nat n)) v b 0 n []); reflexivity.
Qed.

(** The comprehension appends to the new list only: the list the caller
    passed is read, never written. *)
Lemma words_loop_sim (ints : list (list Z)) (base : list (list str))
  (wordlist : nat) (idxs : list Z) :
  (wordlist < List.length base)%nat ->
  forall acc, exists acc',
    words_loop wordlist (List.length base) idxs (Store ints (base ++ [acc]))
    = (outcome_map (fun _ => tt)
         (comprehension (list_getitem (nth wordlist base [])) idxs),
       Store ints (base ++ [acc']))
    /\ forall ws,
         comprehension (list_getitem (nth wordlist base [])) idxs = Ok ws ->
         acc' = acc ++ ws.
Proof.
  intros Hw. induction idxs as [|i rest IH]; intros acc;
    cbn [words_loop comprehension].
  - exists acc. split; [reflexivity|].
    intros ws E. injection E as <-. symmetry. apply app_nil_r.
  - unfold bindM at 1, read_strs at 1. cbn [str_lists].
    rewrite app_nth1 by exact Hw.
    unfold bindM at 1, lift at 1.
    destruct (list_getitem (nth wordlist base []) i) as [w|e|]; cbn [bind].
    + unfold bindM at 1, append_str at 1. cbn [int_lists str_lists].
      rewrite nth_last, set_nth_last.
      destruct (IH (acc ++ [w])) as [acc' [Hl Ha]]. rewrite Hl.
      exists acc'. split.
      * destruct (comprehension (list_getitem (nth wordlist base [])) rest);
          reflexivity.
      * intros ws E.
        destruct (comprehension (list_getitem (nth wordlist base [])) rest)
          as [ws'| |]; cbn [bind] in E; try discriminate.
        injection E as <-. rewrite (Ha ws' eq_refl), <- app_assoc. reflexivity.
    + exists acc. split; [reflexivity | discriminate].
    + exists acc. split; [reflexivity | discriminate].
Qed.

Section CallsOnStore.

Context {U : UnicodeData}.

(** A call on the store returns what [friendly_id] returns on the list
    that [wordlist] refers to, and leaves every list object that existed
    before the call as it was: it only allocates. *)
Lemma friendly_id_st_sim (user_input secret_salt : str) (wordlist : nat)
  (n_words checksum_len : Z) (sep : str) (h : store) :
  (wordlist < List.length (str_lists h))%nat ->
  exists ints' extra,
    friendly_id_st user_input secret_salt wordlist n_words checksum_len sep h
    = (friendly_id user_input secret_salt (nth wordlist (str_lists h) [])
         n_words checksum_len sep,
       Store ints' (str_lists h ++ extra)).
Proof.
  destruct h as [ints strs]. cbn [str_lists]. intros Hw.
  unfold friendly_id_st, friendly_id.
  destruct (n_words <? 2).
  { exists ints, []. rewrite app_nil_r. reflexivity. }
  unfold bindM at 1, lift at 1.
  destruct (str_encode secret_salt) as [key|e|]; cbn [bind];
    try (exists ints, []; rewrite app_nil_r; reflexivity).
  unfold bindM at 1, lift at 1.
  destruct (_hmac_sha256 key user_input) as [digest|e|]; cbn [bind];
    try (exists ints, []; rewrite app_nil_r; reflexivity).
  unfold bindM at 1, read_strs at 1. cbn [str_lists].
  set (wl := nth wordlist strs []).
  destruct (bytes_to_indices_st_sim digest (Z.of_nat (List.length wl)) n_words
              (Store ints strs)) as [out [Hb Ho]].
  unfold bindM at 1. rewrite Hb. cbn [int_lists str_lists].
  destruct (_bytes_to_indices digest (Z.of_nat (List.length wl)) n_words)
    as [idxs|e|]; cbn [outcome_map bind];
    try (exists (ints ++ [out]), []; rewrite app_nil_r; reflexivity).
  rewrite (Ho idxs eq_refl).
  unfold bindM at 1, read_ints at 1. cbn [int_lists]. rewrite nth_last.
  unfold bindM at 1, new_strs at 1. cbn [int_lists str_lists].
  destruct (words_loop_sim (ints ++ [idxs]) strs wordlist idxs Hw [])
    as [acc [Hl Ha]].
  unfold bindM at 1. rewrite Hl. fold wl. fold wl in Ha.
  destruct (comprehension (list_getitem wl) idxs) as [words|e|] eqn:E;
    cbn [outcome_map bind];
    try (exists (ints ++ [idxs]), [acc]; reflexivity).
  rewrite (Ha words eq_refl). cbn [app].
  destruct (checksum_len >? 0).
  - unfold bindM at 1, bindM at 1, new_strs at 1. cbn [int_lists str_lists].
    unfold bindM at 1, read_strs at 1. cbn [str_lists].
    rewrite app_nth1 by (rewrite length_app; cbn [List.length]; lia).
    rewrite nth_last.
    unfold bindM at 1, read_strs at 1. cbn [str_lists]. rewrite nth_last.
    unfold new_strs at 1. cbn [int_lists str_lists].
    unfold bindM at 1, read_strs at 1. cbn [str_lists]. rewrite nth_last.
    unfold ret.
    exists (ints ++ [idxs]),
      [words; [_checksum_base36 digest checksum_len];
       words ++ [_checksum_base36 digest checksum_len]].
    rewrite <- !app_assoc. reflexivity.
  - unfold bindM at 1, ret at 1.
    unfold bindM at 1, read_strs at 1. cbn [str_lists]. rewrite nth_last.
    unfold ret. exists (ints ++ [idxs]), [words]. reflexivity.
Qed.

End CallsOnStore.

(** C2.  Two calls of [friendly_id] with identical arguments return the
    same, the same identifier code point for code point or the same
    exception: a call leaves the list object of the wordlist as it found it
    (it appends to lists of its own only), so the next call with the same
    arguments, made in the store the first one left, and any call made in a
    store where the wordlist has the same contents, has the outcome of the
    first. *)
Theorem friendly_id_calls_agree {U : UnicodeData}
  (input salt : str) (wordlist : nat) (word_count checksum_length : Z)
  (separator : str) (h h1 : store) (r1 : outcome str) :
  (wordlist < List.length (str_lists h))%nat ->
  friendly_id_st input salt wordlist word_count checksum_length separator h
  = (r1, h1) ->
  ((wordlist < List.length (str_lists h1))%nat
   /\ nth wordlist (str_lists h1) [] = nth wordlist (str_lists h) [])
  /\ fst (friendly_id_st input salt wordlist word_count checksum_length
            separator h1) = r1
  /\ forall h' wordlist',
       (wordlist' < List.length (str_lists h'))%nat ->
       nth wordlist' (str_lists h') [] = nth wordlist (str_lists h) [] ->
       fst (friendly_id_st input salt wordlist' word_count checksum_length
              separator h') = r1.
Proof.
  intros Hw H1.
  destruct (friendly_id_st_sim input salt wordlist word_count checksum_length
              separator h Hw) as [ints1 [extra1 E1]].
  rewrite E1 in H1. injection H1 as <- <-. cbn [str_lists].
  assert (Hother : forall h' wordlist',
            (wordlist' < List.length (str_lists h'))%nat ->
            nth wordlist' (str_lists h') [] = nth wordlist (str_lists h) [] ->
            fst (friendly_id_st input salt wordlist' word_count
                   checksum_length separator h')
            = friendly_id input salt (nth wordlist (str_lists h) [])
                word_count checksum_length separator).
  { intros h' wordlist' Hw' Hsame.
    destruct (friendly_id_st_sim input salt wordlist' word_count
                checksum_length separator h' Hw') as [ints' [extra' E']].
    rewrite E', Hsame. reflexivity. }
  assert (Hkept : (wordlist < List.length (str_lists h ++ extra1))%nat
                  /\ nth wordlist (str_lists h ++ extra1) []
                     = nth wordlist (str_lists h) []).
  { split; [rewrite length_app; lia | apply app_nth1, Hw]. }
  split; [exact Hkept|]. split; [|exact Hother].
  apply Hother; cbn [str_lists]; apply Hkept.
Qed.

Lemma friendly_id_calls_agree_witness :
  fst (friendly_id_st (U := UCD.excerpt) (lit "user@example.com") (lit "test-salt")
         1%nat 3 2 (lit "-")
         (snd (friendly_id_st (U := UCD.excerpt) (lit "user@example.com")
                 (lit "test-salt") 1%nat 3 2 (lit "-")
                 (Store [[1; 2]] [[lit "x"]; wordlist512]))))
  = Ok (lit "akx-afb-afx-J3").
Proof.
  apply (friendly_id_calls_agree (U := UCD.excerpt)
           (lit "user@example.com") (lit "test-salt") 1%nat 3 2 (lit "-")
           (Store [[1; 2]] [[lit "x"]; wordlist512])).
  - cbn [str_lists List.length]. lia.
  - vm_compute. reflexivity.
Defined.
